(** * PredictiveSankeyDiagram: layout, ribbons, colour scale and interaction

    A shallow embedding of the drawing effect of the [PredictiveSankeyDiagram]
    component (the [useEffect] body and the pointer handlers it installs) and
    the properties of the flow-diagram engine proved about it.

    Conventions of the embedding.
    - A JavaScript number is a binary64 floating-point number ([F64]): a
      rational that binary64 holds, an infinity or NaN.  [round64] is the
      double nearest to a real number, ties to even, with gradual underflow
      and overflow to the infinities: a decimal literal is read with it and
      the result of an operation is rounded with it.  Zero has no sign in
      the model.
    - The records of the data hold rationals ([Q]).  A risk score is a
      decimal fraction (0.321), which binary64 does not hold, and is rounded
      when it is read; the sum, the half and the comparisons that give a
      colour are those of binary64 ([getRiskColor64]; [getRiskColor] is the
      same scale on the real numbers, and the two agree on every double).
      A link value is taken to be a double (the dataset has whole numbers)
      and is not rounded when it is read; the quotient and the product of
      [linkHeight] are rounded.
    - The sums and differences that give the coordinates of the layout and
      of the outlines are the un-rounded ones: what is proved about
      coordinates is about the real-number reading of the code.
    - Node ids, layers and link endpoints are integers ([Z]).
    - The object [nodePositions], used as a map from node id to a position
      record, is a [gmap Z Position]; arrays are lists.
    - A statement that throws is modelled by the [Throw] result.
    - The dataset ([nodes], [links]) and the canvas constants are parameters
      of the definitions; the values written in the component are given as
      [nodes0], [links0] and [canvas0].
    - Of the drawing, the paths of the links, the groups and rectangles of
      the nodes and the swatches of the legend are modelled; the gradients,
      the texts and the layer labels, which no handler touches, are not
      (the layer labels are given separately, as [drawLayerLabels]).
    - The other components are covered by what they compute: the list of
      recent predictions of [App], the colours of the risk categories of
      the form and of the animal card, and the hooks of [usePrediction],
      each call of which is followed to its end with the reply of the server
      given as an argument. *)

From Stdlib Require Import QArith Qminmax Lqa Qround Qpower.
From stdpp Require Import gmap strings list fin_maps pretty.

Open Scope Q_scope.

(** ** Results of statements that may throw *)

Inductive Exn : Type :=
  | TypeError.

Inductive result (A : Type) : Type :=
  | Ok (a : A)
  | Throw (e : Exn).

Arguments Ok {A} a.
Arguments Throw {A} e.

#[global] Instance result_ret : MRet result := fun A a => Ok a.

#[global] Instance result_bind : MBind result := fun A B k r =>
  match r with
  | Ok a => k a
  | Throw e => Throw e
  end.

(** [arr.forEach((elem, index) => body)] threading the state the body
    mutates; [forEach_from] is the loop from a given start index. *)
Fixpoint forEach_from {A St : Type} (body : St -> A -> nat -> St)
    (i : nat) (arr : list A) (s : St) : St :=
  match arr with
  | [] => s
  | a :: arr' => forEach_from body (S i) arr' (body s a i)
  end.

Definition forEach {A St : Type} (body : St -> A -> nat -> St)
    (arr : list A) (s : St) : St :=
  forEach_from body 0 arr s.

(** The same loop with a body that may throw: the first exception leaves the
    loop. *)
Fixpoint forEachM {A St : Type} (body : St -> A -> result St)
    (arr : list A) (s : St) : result St :=
  match arr with
  | [] => Ok s
  | a :: arr' => s' ← body s a; forEachM body arr' s'
  end.

(** ** Numbers *)

(** [a > b] on numbers. *)
Definition gt (a b : Q) : bool := negb (Qle_bool a b).

(** The number of an array index or length. *)
Definition num (n : nat) : Q := inject_Z (Z.of_nat n).

(** A binary64 number: a finite one, given by its value, an infinity or
    NaN. *)
Inductive F64 : Type :=
  | Finite (q : Q)
  | PlusInfinity
  | MinusInfinity
  | NaN.

(** The integer nearest to [r], the even one of the two when [r] is halfway
    between them. *)
Definition round_half_even (r : Q) : Z :=
  let f := Qfloor r in
  match Qcompare (r - inject_Z f) (1 # 2) with
  | Lt => f
  | Gt => (f + 1)%Z
  | Eq => if Z.even f then f else (f + 1)%Z
  end.

(** For [0 < q], the [k] with [2 ^ k <= q < 2 ^ (k + 1)]. *)
Definition log2_floor (q : Q) : Z :=
  let k := (Z.log2 (Qnum q) - Z.log2 (Zpos (Qden q)))%Z in
  if Qle_bool (2 ^ k) q then k else (k - 1)%Z.

(** The exponent of the last place of the double nearest to [q]: 53 bits of
    significand, and [2 ^ -1074] for the subnormal numbers. *)
Definition exponent64 (q : Q) : Z := Z.max (log2_floor q - 52) (-1074).

(** For [0 < q], the multiple of [2 ^ exponent64 q] nearest to [q]. *)
Definition nearest64 (q : Q) : Q :=
  inject_Z (round_half_even (q / 2 ^ exponent64 q)) * 2 ^ exponent64 q.

Definition round64_pos (q : Q) : F64 :=
  let r := nearest64 q in
  if Qle_bool (2 ^ 1024) r then PlusInfinity else Finite (Qred r).

Definition opp64 (x : F64) : F64 :=
  match x with
  | Finite q => Finite (- q)
  | PlusInfinity => MinusInfinity
  | MinusInfinity => PlusInfinity
  | NaN => NaN
  end.

(** The double nearest to the real number [q]. *)
Definition round64 (q : Q) : F64 :=
  match Qcompare q 0 with
  | Eq => Finite 0
  | Gt => round64_pos q
  | Lt => opp64 (round64_pos (- q))
  end.

(** An infinity ([inf]) multiplied or divided by a finite number of the
    sign [s]. *)
Definition signed (s : comparison) (inf : F64) : F64 :=
  match s with
  | Eq => NaN
  | Gt => inf
  | Lt => opp64 inf
  end.

(** [a + b]. *)
Definition add64 (a b : F64) : F64 :=
  match a, b with
  | NaN, _ | _, NaN => NaN
  | Finite x, Finite y => round64 (x + y)
  | PlusInfinity, MinusInfinity | MinusInfinity, PlusInfinity => NaN
  | PlusInfinity, _ | _, PlusInfinity => PlusInfinity
  | MinusInfinity, _ | _, MinusInfinity => MinusInfinity
  end.

(** [a * b]. *)
Definition mul64 (a b : F64) : F64 :=
  match a, b with
  | NaN, _ | _, NaN => NaN
  | Finite x, Finite y => round64 (x * y)
  | Finite x, inf | inf, Finite x => signed (Qcompare x 0) inf
  | MinusInfinity, MinusInfinity => PlusInfinity
  | PlusInfinity, PlusInfinity => PlusInfinity
  | _, _ => MinusInfinity
  end.

(** [a / b]; a finite number divided by zero is an infinity of its sign,
    and zero divided by zero is NaN. *)
Definition div64 (a b : F64) : F64 :=
  match a, b with
  | NaN, _ | _, NaN => NaN
  | Finite x, Finite y =>
      if Qeq_bool y 0 then signed (Qcompare x 0) PlusInfinity
      else round64 (x / y)
  | Finite _, _ => Finite 0
  | inf, Finite y =>
      match Qcompare y 0 with
      | Lt => opp64 inf
      | _ => inf
      end
  | _, _ => NaN
  end.

(** [a > b] on doubles: false when one of them is NaN. *)
Definition gt64 (a b : F64) : bool :=
  match a, b with
  | NaN, _ | _, NaN => false
  | Finite x, Finite y => gt x y
  | _, PlusInfinity => false
  | PlusInfinity, _ => true
  | MinusInfinity, _ => false
  | Finite _, MinusInfinity => true
  end.

(** [Math.max(a, b)]: NaN when one of them is. *)
Definition Math_max (a b : F64) : F64 :=
  match a, b with
  | NaN, _ | _, NaN => NaN
  | PlusInfinity, _ | _, PlusInfinity => PlusInfinity
  | MinusInfinity, x | x, MinusInfinity => x
  | Finite x, Finite y => Finite (Qmax x y)
  end.

(** [Math.max(...xs)] of finite numbers; the call without arguments is
    minus infinity. *)
Definition Math_max_spread (xs : list Q) : F64 :=
  match xs with
  | [] => MinusInfinity
  | x :: xs' => Finite (foldl Qmax x xs')
  end.

(** The value of a number that is finite. *)
Definition finite (x : F64) : option Q :=
  match x with
  | Finite q => Some q
  | _ => None
  end.

(** ** Data model *)

Module Node.
Record t : Type := mk {
  id : Z;
  name : string;
  layer : Z;
  type : string;
  riskScore : Q;
  count : option Z;
  future : bool
}.
End Node.

Module Link.
Record t : Type := mk {
  source : Z;
  target : Z;
  value : Q
}.
End Link.

Module Margin.
Record t : Type := mk {
  top : Q;
  right : Q;
  bottom : Q;
  left : Q
}.
End Margin.

(** The constants [width], [height] and [margin] of the effect. *)
Module Canvas.
Record t : Type := mk {
  width : Q;
  height : Q;
  margin : Margin.t
}.
End Canvas.

(** An entry of [nodePositions]. *)
Module Pos.
Record t : Type := mk {
  x : Q;
  y : Q;
  width : Q;
  height : Q;
  riskScore : Q
}.
End Pos.

Definition canvas0 : Canvas.t :=
  Canvas.mk 1500 800 (Margin.mk 80 200 80 150).

Definition nodes0 : list Node.t :=
  [ Node.mk 0 "Diurnal" 0 "activity" 0.321 None false;
    Node.mk 1 "Nocturnal" 0 "activity" 0.293 None false;
    Node.mk 2 "Mixed Activity" 0 "activity" 0.264 None false;
    Node.mk 3 "Slow Reproduction" 1 "repro" 0.592 None false;
    Node.mk 4 "Fast Reproduction" 1 "repro" 0.324 None false;
    Node.mk 5 "Moderate Reproduction" 1 "repro" 0.309 None false;
    Node.mk 6 "Small Range" 2 "habitat" 0.282 None false;
    Node.mk 7 "Medium Range" 2 "habitat" 0.136 None false;
    Node.mk 8 "Large Range" 2 "habitat" 0.114 None false;
    Node.mk 9 "Decreasing" 3 "trend" 0.540 None false;
    Node.mk 10 "Stable" 3 "trend" 0.065 None false;
    Node.mk 11 "Increasing" 3 "trend" 0.180 None false;
    Node.mk 12 "HIGH RISK" 4 "prediction" 0.85 (Some 1200%Z) true;
    Node.mk 13 "MEDIUM RISK" 4 "prediction" 0.55 (Some 3400%Z) true;
    Node.mk 14 "LOW RISK" 4 "prediction" 0.25 (Some 18953%Z) true ].

Definition links0 : list Link.t :=
  [ Link.mk 0 3 10; Link.mk 0 4 80; Link.mk 0 5 120;
    Link.mk 1 3 120; Link.mk 1 4 50; Link.mk 1 5 80;
    Link.mk 2 3 15; Link.mk 2 4 220; Link.mk 2 5 600;
    Link.mk 3 6 100; Link.mk 3 7 20; Link.mk 3 8 5;
    Link.mk 4 6 150; Link.mk 4 7 120; Link.mk 4 8 80;
    Link.mk 5 6 400; Link.mk 5 7 250; Link.mk 5 8 50;
    Link.mk 6 9 600; Link.mk 6 10 300; Link.mk 6 11 50;
    Link.mk 7 9 200; Link.mk 7 10 150; Link.mk 7 11 20;
    Link.mk 8 9 30; Link.mk 8 10 100; Link.mk 8 11 5;
    Link.mk 9 12 450; Link.mk 9 13 320; Link.mk 9 14 60;
    Link.mk 10 12 50; Link.mk 10 13 280; Link.mk 10 14 220;
    Link.mk 11 12 30; Link.mk 11 13 120; Link.mk 11 14 65 ].

(** ** Colour scale *)

Definition getRiskColor (score : Q) : string :=
  if gt score 0.7 then "#dc2626"
  else if gt score 0.5 then "#f97316"
  else if gt score 0.3 then "#eab308"
  else if gt score 0.15 then "#22c55e"
  else "#16a34a".

(** [getRiskColor] as the drawing calls it: the score is a double, and so
    are the four thresholds, each the double of its literal. *)
Definition getRiskColor64 (score : F64) : string :=
  if gt64 score (round64 0.7) then "#dc2626"
  else if gt64 score (round64 0.5) then "#f97316"
  else if gt64 score (round64 0.3) then "#eab308"
  else if gt64 score (round64 0.15) then "#22c55e"
  else "#16a34a".

(** The five bands, named as in the comments of [getRiskColor] and the
    labels of the legend, each with the colour the legend gives it. *)
Inductive RiskBand : Type :=
  | VeryHigh | High | Medium | Low | VeryLow.

Record LegendItem : Type := mkLegendItem {
  legend_score : Q;
  legend_label : string;
  legend_color : string
}.

Definition legendData : list LegendItem :=
  [ mkLegendItem 0.9 "Very High Risk (>70%)" "#dc2626";
    mkLegendItem 0.6 "High Risk (50-70%)" "#f97316";
    mkLegendItem 0.4 "Medium Risk (30-50%)" "#eab308";
    mkLegendItem 0.2 "Low Risk (15-30%)" "#22c55e";
    mkLegendItem 0.08 "Very Low Risk (<15%)" "#16a34a" ].

Definition bandColor (b : RiskBand) : string :=
  match b with
  | VeryHigh => "#dc2626"
  | High => "#f97316"
  | Medium => "#eab308"
  | Low => "#22c55e"
  | VeryLow => "#16a34a"
  end.

(** ** Layout *)

(** [layers[node.layer].push(node)]: the array has five buckets, and a layer
    outside them reads [undefined], whose [push] throws. *)
Definition push_layer (layers : list (list Node.t)) (node : Node.t)
    : result (list (list Node.t)) :=
  if decide (0 <= Node.layer node)%Z then
    match layers !! Z.to_nat (Node.layer node) with
    | Some bucket =>
        Ok (<[Z.to_nat (Node.layer node) := bucket ++ [node]]> layers)
    | None => Throw TypeError
    end
  else Throw TypeError.

Definition group_layers (nodes : list Node.t) : result (list (list Node.t)) :=
  forEachM push_layer nodes [[]; []; []; []; []].

Definition layerWidth (c : Canvas.t) : Q :=
  (Canvas.width c - Margin.left (Canvas.margin c)
   - Margin.right (Canvas.margin c)) / 4.

Definition layerHeight (c : Canvas.t) : Q :=
  Canvas.height c - Margin.top (Canvas.margin c)
  - Margin.bottom (Canvas.margin c).

Definition nodeHeight : Q := 45.

Definition totalHeight (layer : list Node.t) : Q :=
  num (length layer) * (nodeHeight + 15).

Definition startY (c : Canvas.t) (layer : list Node.t) : Q :=
  Margin.top (Canvas.margin c) + (layerHeight c - totalHeight layer) / 2.

(** The position written for the node at [nodeIndex] of layer [layerIndex]. *)
Definition position_of (c : Canvas.t) (layerIndex : nat) (layer : list Node.t)
    (node : Node.t) (nodeIndex : nat) : Pos.t :=
  {| Pos.x := Margin.left (Canvas.margin c) + num layerIndex * layerWidth c;
     Pos.y := startY c layer + num nodeIndex * (nodeHeight + 15);
     Pos.width := 130;
     Pos.height := nodeHeight;
     Pos.riskScore := Node.riskScore node |}.

(** The body of the inner loop: [nodePositions[node.id] = {...}]. *)
Definition place_node (c : Canvas.t) (layerIndex : nat) (layer : list Node.t)
    (np : gmap Z Pos.t) (node : Node.t) (nodeIndex : nat) : gmap Z Pos.t :=
  <[Node.id node := position_of c layerIndex layer node nodeIndex]> np.

(** The body of the outer loop over [layers]. *)
Definition place_layer (c : Canvas.t) (np : gmap Z Pos.t)
    (layer : list Node.t) (layerIndex : nat) : gmap Z Pos.t :=
  forEach (place_node c layerIndex layer) layer np.

Definition nodePositions (c : Canvas.t) (nodes : list Node.t)
    : result (gmap Z Pos.t) :=
  layers ← group_layers nodes;
  Ok (forEach (place_layer c) layers ∅).

(** ** Link geometry *)

Definition maxValue (links : list Link.t) : F64 :=
  Math_max_spread (Link.value <$> links).

(** [Math.max(2, (link.value / maxValue) * 25)], when it is a finite number.
    It is none when [maxValue] is 0 and the value is not negative: the
    quotient is then plus infinity or NaN, and so is the maximum.  For a
    negative value and a [maxValue] of 0 the quotient is minus infinity and
    the maximum is 2. *)
Definition linkHeight (links : list Link.t) (link : Link.t) : option Q :=
  finite
    (Math_max (Finite 2)
       (mul64 (div64 (Finite (Link.value link)) (maxValue links))
          (Finite 25))).

Inductive PathCmd : Type :=
  | moveTo (x y : Q)
  | bezierCurveTo (cp1x cp1y cp2x cp2y x y : Q)
  | lineTo (x y : Q)
  | closePath.

(** The closed outline of a ribbon between two positions. *)
Definition ribbon (source target : Pos.t) (linkHeight : Q) : list PathCmd :=
  [ moveTo (Pos.x source + Pos.width source)
           (Pos.y source + Pos.height source / 2);
    bezierCurveTo
      (Pos.x source + Pos.width source + 40)
      (Pos.y source + Pos.height source / 2)
      (Pos.x target - 40)
      (Pos.y target + Pos.height target / 2)
      (Pos.x target)
      (Pos.y target + Pos.height target / 2);
    lineTo (Pos.x target)
           (Pos.y target + Pos.height target / 2 - linkHeight / 2);
    bezierCurveTo
      (Pos.x target - 40)
      (Pos.y target + Pos.height target / 2 - linkHeight / 2)
      (Pos.x source + Pos.width source + 40)
      (Pos.y source + Pos.height source / 2 - linkHeight / 2)
      (Pos.x source + Pos.width source)
      (Pos.y source + Pos.height source / 2 - linkHeight / 2);
    closePath ].

(** ** The drawing *)

(** A [path] element of the link group; [d] is [None] when the thickness is
    not a finite number. *)
Module PathEl.
Record t : Type := mk {
  d : option (list PathCmd);
  fill : string;
  opacity : Q
}.
End PathEl.

(** A [rect] element; [opacity] is [None] while the attribute is absent. *)
Module RectEl.
Record t : Type := mk {
  width : Q;
  height : Q;
  rx : Q;
  fill : string;
  opacity : option Q;
  stroke : option string;
  stroke_width : option Q
}.
End RectEl.

(** The group of a node: its translation, its rectangle, and the node its
    handlers close over. *)
Module NodeG.
Record t : Type := mk {
  transform : Q * Q;
  rect : RectEl.t;
  node : Node.t
}.
End NodeG.

Module Svg.
Record t : Type := mk {
  linkGroup : list PathEl.t;
  nodeGroup : list NodeG.t;
  legendGroup : list RectEl.t
}.
End Svg.

(** [arr[i]] followed by a property read, which throws on [undefined]. *)
Definition at_index {A : Type} (arr : list A) (i : Z) : result A :=
  if decide (0 <= i)%Z then
    match arr !! Z.to_nat i with
    | Some a => Ok a
    | None => Throw TypeError
    end
  else Throw TypeError.

(** [obj[key]] followed by a property read. *)
Definition at_key {A : Type} (obj : gmap Z A) (key : Z) : result A :=
  match obj !! key with
  | Some a => Ok a
  | None => Throw TypeError
  end.

(** [(sourceScore + targetScore) / 2] of two scores read from the nodes. *)
Definition avgScore (sourceScore targetScore : Q) : F64 :=
  div64 (add64 (round64 sourceScore) (round64 targetScore)) (Finite 2).

(** The body of [links.forEach]: the positions are resolved by node id, the
    risk scores by array index. *)
Definition drawLink (nodes : list Node.t) (links : list Link.t)
    (nodePositions : gmap Z Pos.t) (linkGroup : list PathEl.t)
    (link : Link.t) : result (list PathEl.t) :=
  source ← at_key nodePositions (Link.source link);
  target ← at_key nodePositions (Link.target link);
  let path := ribbon source target <$> linkHeight links link in
  sourceNode ← at_index nodes (Link.source link);
  targetNode ← at_index nodes (Link.target link);
  let sourceScore := Node.riskScore sourceNode in
  let targetScore := Node.riskScore targetNode in
  let avgScore := avgScore sourceScore targetScore in
  Ok (linkGroup ++ [PathEl.mk path (getRiskColor64 avgScore) 0.25]).

(** The group appended for a node at position [pos]. *)
Definition node_group (pos : Pos.t) (node : Node.t) : NodeG.t :=
  let color := getRiskColor64 (round64 (Node.riskScore node)) in
  let rect :=
    {| RectEl.width := Pos.width pos;
       RectEl.height := Pos.height pos;
       RectEl.rx := 6;
       RectEl.fill := color;
       RectEl.opacity := Some 0.85;
       RectEl.stroke := Some (if Node.future node then "#fff" else "none");
       RectEl.stroke_width := Some (if Node.future node then 2 else 0) |} in
  NodeG.mk (Pos.x pos, Pos.y pos) rect node.

(** The body of [nodes.forEach]. *)
Definition drawNode (nodePositions : gmap Z Pos.t) (nodeGroup : list NodeG.t)
    (node : Node.t) : result (list NodeG.t) :=
  pos ← at_key nodePositions (Node.id node);
  Ok (nodeGroup ++ [node_group pos node]).

(** The swatch of a legend entry: no [opacity] and no stroke is set. *)
Definition drawLegendItem (item : LegendItem) : RectEl.t :=
  {| RectEl.width := 15;
     RectEl.height := 15;
     RectEl.rx := 3;
     RectEl.fill := legend_color item;
     RectEl.opacity := None;
     RectEl.stroke := None;
     RectEl.stroke_width := None |}.

(** The body of the effect: the previous content of the svg is removed and
    the whole drawing is made again. *)
Definition draw (c : Canvas.t) (nodes : list Node.t) (links : list Link.t)
    (previous : Svg.t) : result Svg.t :=
  let cleared := Svg.mk [] [] [] in
  np ← nodePositions c nodes;
  linkGroup ← forEachM (drawLink nodes links np) links (Svg.linkGroup cleared);
  nodeGroup ← forEachM (drawNode np) nodes (Svg.nodeGroup cleared);
  Ok (Svg.mk linkGroup nodeGroup
        (Svg.legendGroup cleared ++ (drawLegendItem <$> legendData))).

(** ** Interaction *)

(** The state of the component: the two [useState] cells and the content of
    the svg element. *)
Module Component.
Record t : Type := mk {
  hoveredNode : option Z;
  selectedNode : option Z;
  svg : Svg.t
}.
End Component.

Inductive Event : Type :=
  | NodeMouseEnter (i : nat)
  | NodeMouseLeave (i : nat)
  | NodeClick (i : nat)
  | LinkMouseEnter (j : nat)
  | LinkMouseLeave (j : nat).

Definition rect_attr_opacity (o : Q) (r : RectEl.t) : RectEl.t :=
  {| RectEl.width := RectEl.width r;
     RectEl.height := RectEl.height r;
     RectEl.rx := RectEl.rx r;
     RectEl.fill := RectEl.fill r;
     RectEl.opacity := Some o;
     RectEl.stroke := RectEl.stroke r;
     RectEl.stroke_width := RectEl.stroke_width r |}.

Definition node_rect_attr_opacity (o : Q) (g : NodeG.t) : NodeG.t :=
  NodeG.mk (NodeG.transform g) (rect_attr_opacity o (NodeG.rect g))
    (NodeG.node g).

Definition path_attr_opacity (o : Q) (p : PathEl.t) : PathEl.t :=
  PathEl.mk (PathEl.d p) (PathEl.fill p) o.

(** [d3.selectAll('rect').attr('opacity', o)]: every [rect] of the drawing,
    the one of each node group and the swatches of the legend. *)
Definition selectAll_rect_attr_opacity (o : Q) (s : Svg.t) : Svg.t :=
  Svg.mk (Svg.linkGroup s)
    (node_rect_attr_opacity o <$> Svg.nodeGroup s)
    (rect_attr_opacity o <$> Svg.legendGroup s).

(** [d3.select(this).select('rect').attr('opacity', o)] in the handler of
    the [i]-th node group. *)
Definition select_this_rect_attr_opacity (i : nat) (o : Q) (s : Svg.t)
    : Svg.t :=
  Svg.mk (Svg.linkGroup s)
    (alter (node_rect_attr_opacity o) i (Svg.nodeGroup s))
    (Svg.legendGroup s).

(** [d3.select(this).attr('opacity', o)] in the handler of the [j]-th path. *)
Definition select_this_path_attr_opacity (j : nat) (o : Q) (s : Svg.t)
    : Svg.t :=
  Svg.mk (alter (path_attr_opacity o) j (Svg.linkGroup s))
    (Svg.nodeGroup s) (Svg.legendGroup s).

Section Interaction.

Variable c : Canvas.t.
Variable nodes : list Node.t.
Variable links : list Link.t.

(** The first render: both cells are [null] and the effect draws. *)
Definition mount : result Component.t :=
  svg ← draw c nodes links (Svg.mk [] [] []);
  Ok (Component.mk None None svg).

Definition onNodeMouseEnter (i : nat) (node : Node.t) (st : Component.t)
    : Component.t :=
  let svg1 := selectAll_rect_attr_opacity 0.3 (Component.svg st) in
  let svg2 := select_this_rect_attr_opacity i 1 svg1 in
  Component.mk (Some (Node.id node)) (Component.selectedNode st) svg2.

Definition onNodeMouseLeave (st : Component.t) : Component.t :=
  let svg1 := selectAll_rect_attr_opacity 0.85 (Component.svg st) in
  Component.mk None (Component.selectedNode st) svg1.

(** [setSelectedNode(selectedNode === node.id ? null : node.id)].  The new
    value always differs from the old one, so the effect, whose dependency
    is [selectedNode], runs again and redraws; this is also why the
    [selectedNode] seen by the handler is the current one. *)
Definition onNodeClick (node : Node.t) (st : Component.t)
    : result Component.t :=
  let selected :=
    if decide (Component.selectedNode st = Some (Node.id node))
    then None else Some (Node.id node) in
  svg ← draw c nodes links (Component.svg st);
  Ok (Component.mk (Component.hoveredNode st) selected svg).

Definition onLinkMouseEnter (j : nat) (st : Component.t) : Component.t :=
  Component.mk (Component.hoveredNode st) (Component.selectedNode st)
    (select_this_path_attr_opacity j 0.6 (Component.svg st)).

Definition onLinkMouseLeave (j : nat) (st : Component.t) : Component.t :=
  Component.mk (Component.hoveredNode st) (Component.selectedNode st)
    (select_this_path_attr_opacity j 0.25 (Component.svg st)).

(** One pointer event on the [i]-th node group or the [j]-th path.  An
    event on an element that the drawing does not have runs no handler. *)
Definition step (st : Component.t) (ev : Event) : result Component.t :=
  match ev with
  | NodeMouseEnter i =>
      match Svg.nodeGroup (Component.svg st) !! i with
      | Some g => Ok (onNodeMouseEnter i (NodeG.node g) st)
      | None => Ok st
      end
  | NodeMouseLeave i =>
      match Svg.nodeGroup (Component.svg st) !! i with
      | Some g => Ok (onNodeMouseLeave st)
      | None => Ok st
      end
  | NodeClick i =>
      match Svg.nodeGroup (Component.svg st) !! i with
      | Some g => onNodeClick (NodeG.node g) st
      | None => Ok st
      end
  | LinkMouseEnter j =>
      match Svg.linkGroup (Component.svg st) !! j with
      | Some p => Ok (onLinkMouseEnter j st)
      | None => Ok st
      end
  | LinkMouseLeave j =>
      match Svg.linkGroup (Component.svg st) !! j with
      | Some p => Ok (onLinkMouseLeave j st)
      | None => Ok st
      end
  end.

(** A sequence of events, one after the other. *)
Definition run (st : Component.t) (evs : list Event) : result Component.t :=
  forEachM step evs st.

End Interaction.

(** The band of a score, read off the comparisons of the claim. *)
Definition band_of_score (s : Q) (b : RiskBand) : Prop :=
  match b with
  | VeryHigh => 0.7 < s
  | High => 0.5 < s /\ s <= 0.7
  | Medium => 0.3 < s /\ s <= 0.5
  | Low => 0.15 < s /\ s <= 0.3
  | VeryLow => s <= 0.15
  end.

(** ** Notions used in the statements *)

(** The order of the doubles; NaN is not comparable. *)
Definition le64 (a b : F64) : Prop :=
  match a, b with
  | NaN, _ | _, NaN => False
  | MinusInfinity, _ => True
  | _, PlusInfinity => True
  | Finite x, Finite y => x <= y
  | _, _ => False
  end.

(** A rational that binary64 holds: rounding gives it back, in lowest
    terms. *)
Definition double (x : Q) : Prop := round64 x = Finite (Qred x).

(** The link [l] with its value multiplied by [k]. *)
Definition scale_link (k : Q) (l : Link.t) : Link.t :=
  Link.mk (Link.source l) (Link.target l) (k * Link.value l).

(** The nodes of layer [li], in the order of the dataset. *)
Definition bucket (li : nat) (nodes : list Node.t) : list Node.t :=
  filter (fun n => Node.layer n = Z.of_nat li) nodes.

(** The start offset as the specification words it, with
    [totalStackHeight = count * (nodeHeight + gap) - gap]. *)
Definition spec_totalStackHeight (count : nat) : Q :=
  num count * (nodeHeight + 15) - 15.

Definition spec_startY (c : Canvas.t) (count : nat) : Q :=
  Margin.top (Canvas.margin c)
  + (layerHeight c - spec_totalStackHeight count) / 2.

(** Every node of the dataset is in one of the five layers. *)
Definition valid_layers (nodes : list Node.t) : Prop :=
  forall n, n ∈ nodes -> (0 <= Node.layer n < 5)%Z.

(** The component shows the dataset: the effect can draw it, and the node
    groups of the svg are those of the nodes, in order. *)
Definition shows (c : Canvas.t) (nodes : list Node.t) (links : list Link.t)
    (st : Component.t) : Prop :=
  (exists s : Svg.t, draw c nodes links (Svg.mk [] [] []) = Ok s) /\
  NodeG.node <$> Svg.nodeGroup (Component.svg st) = nodes.

(** The states the component goes through. *)
Inductive reachable (c : Canvas.t) (nodes : list Node.t) (links : list Link.t)
    : Component.t -> Prop :=
  | reachable_mount (st : Component.t) :
      mount c nodes links = Ok st -> reachable c nodes links st
  | reachable_step (st st' : Component.t) (ev : Event) :
      reachable c nodes links st ->
      step c nodes links st ev = Ok st' ->
      reachable c nodes links st'.

(** The node groups [gs] are those of [nodes], in order, each translated to
    the position that [np] gives to the id of its node. *)
Definition positioned (np : gmap Z Pos.t) (nodes : list Node.t)
    (gs : list NodeG.t) : Prop :=
  Forall2 (fun n g => NodeG.node g = n /\
                      exists pos, np !! Node.id n = Some pos /\
                                  NodeG.transform g = (Pos.x pos, Pos.y pos))
    nodes gs.

(** The ids are the array indices, as in the dataset of the component. *)
Definition ids_are_indices (nodes : list Node.t) : Prop :=
  forall (i : nat) (n : Node.t), nodes !! i = Some n -> Node.id n = Z.of_nat i.


(** The dataset of the end-to-end scenario. *)
Definition nodes_scenario : list Node.t :=
  [ Node.mk 0 "A" 0 "activity" 0.3 None false;
    Node.mk 1 "B" 1 "repro" 0.9 None false ].

Definition links_scenario : list Link.t := [ Link.mk 0 1 100 ].

(** ** Further notions *)

(** [i] is an index of [arr]. *)
Definition in_bounds {A : Type} (arr : list A) (i : Z) : Prop :=
  (0 <= i < Z.of_nat (length arr))%Z.

(** The datasets that the effect draws without throwing: the layers are
    among the five, and each end of each link is both the id of a node and
    an index of [nodes]. *)
Definition drawable (nodes : list Node.t) (links : list Link.t) : Prop :=
  valid_layers nodes /\
  forall link, link ∈ links ->
    Link.source link ∈ (Node.id <$> nodes) /\
    Link.target link ∈ (Node.id <$> nodes) /\
    in_bounds nodes (Link.source link) /\
    in_bounds nodes (Link.target link).

(** Two nodes with the same id, in the first and in the fourth layer. *)
Definition nodes_twice : list Node.t :=
  [ Node.mk 7 "A" 0 "activity" 0.2 None false;
    Node.mk 7 "B" 3 "trend" 0.8 None false ].

(** ** The other components *)

(** [s.includes(sub)]: [sub] occurs in [s] at some position. *)
Fixpoint includes (s sub : string) : bool :=
  if String.prefix sub s then true
  else match s with
       | EmptyString => false
       | String _ s' => includes s' sub
       end.

(** The list of recent predictions of [App]. *)
Module App.

(** [setRecentPredictions(prev => [prediction, ...prev.slice(0, 4)])]. *)
Definition handlePredictionComplete {A : Type} (prev : list A)
    (prediction : A) : list A :=
  prediction :: take 4 prev.

End App.

(** The colour of a risk category in the prediction form; [None] is a
    category that is [null] or [undefined]. *)
Module PredictionForm.

Definition getRiskColor (category : option string) : string :=
  match category with
  | Some c =>
      if String.eqb c "High Risk" then "#dc2626"
      else if String.eqb c "Medium Risk" then "#f97316"
      else if String.eqb c "Low Risk" then "#22c55e"
      else "#6b7280"
  | None => "#6b7280"
  end.

End PredictionForm.

(** The colour of a risk category on an animal card. *)
Module AnimalCard.

Definition getRiskColor (category : option string) : string :=
  match category with
  | None | Some EmptyString => "#6b7280"
  | Some c =>
      if includes c "High" then "#dc2626"
      else if includes c "Medium" then "#f97316"
      else if includes c "Low" then "#22c55e"
      else "#6b7280"
  end.

End AnimalCard.

(** The hooks of [usePrediction].  A call is followed to its end with the
    reply of the server given: [A] is the type of the animal data objects
    and [D] that of the JSON values other than [null]. *)
Module UsePrediction.
Section Hooks.

Context {A D : Type}.

(** What a [catch] receives: an [Error] with its message, or another
    value. *)
Inductive Thrown : Type :=
  | ErrorObject (message : string)
  | OtherValue.

(** The body of a reply that is not ok, as [await response.json()] followed
    by [errorData.error] reads it: the reading throws, or the field is
    truthy ([Some]) or falsy or missing ([None]). *)
Inductive ErrorBody : Type :=
  | ErrorBodyThrows (e : Thrown)
  | ErrorBodyField (error : option string).

(** The body of an ok reply: [response.json()] throws, or gives a value,
    [None] being [null]. *)
Inductive Body : Type :=
  | BodyThrows (e : Thrown)
  | BodyValue (data : option D).

(** The outcome of [await fetch(...)]. *)
Inductive Reply : Type :=
  | Rejected (e : Thrown)
  | NotOk (status : Z) (body : ErrorBody)
  | Responded (body : Body).

(** [err instanceof Error ? err.message : fallback]. *)
Definition message_of (fallback : string) (e : Thrown) : string :=
  match e with
  | ErrorObject message => message
  | OtherValue => fallback
  end.

Record State : Type := mkState {
  loading : bool;
  error : option string;
  result : option D
}.

Definition setLoading (b : bool) (st : State) : State :=
  mkState b (error st) (result st).

Definition setError (e : option string) (st : State) : State :=
  mkState (loading st) e (result st).

Definition setResult (r : option D) (st : State) : State :=
  mkState (loading st) (error st) r.

(** The [try] block of [predict]: the data, or what is thrown.  [None] as
    animal data is a value that is falsy or not an object. *)
Definition predict_try (animalData : option A) (reply : Reply)
    : Thrown + option D :=
  match animalData with
  | None => inl (ErrorObject "Invalid animal data")
  | Some _ =>
      match reply with
      | Rejected e => inl e
      | NotOk status (ErrorBodyThrows e) => inl e
      | NotOk status (ErrorBodyField (Some error)) => inl (ErrorObject error)
      | NotOk status (ErrorBodyField None) =>
          inl (ErrorObject ("HTTP error! status: " +:+ pretty status))
      | Responded (BodyThrows e) => inl e
      | Responded (BodyValue data) => inr data
      end
  end.

(** [predict(animalData)], with the state after it and the value it
    resolves to. *)
Definition predict (animalData : option A) (reply : Reply) (st : State)
    : State * option D :=
  let st := setResult None (setError None (setLoading true st)) in
  match predict_try animalData reply with
  | inr data => (setLoading false (setResult data st), data)
  | inl err =>
      let errorMessage := message_of "Unknown error occurred" err in
      (setLoading false (setError (Some errorMessage) st), None)
  end.

(** [reset()]. *)
Definition reset (st : State) : State :=
  setResult None (setError None (setLoading false st)).

(** An entry of the batch results: the animal data with a prediction or
    with an error message. *)
Inductive Outcome : Type :=
  | Predicted (prediction : option D)
  | Failed (error : string).

(** The inner [try] of [predictBatch] for one animal. *)
Definition predictBatch_item (reply : Reply) : Outcome :=
  match reply with
  | Rejected e => Failed (message_of "Unknown error" e)
  | NotOk _ _ => Failed "Prediction failed for animal"
  | Responded (BodyThrows e) => Failed (message_of "Unknown error" e)
  | Responded (BodyValue data) => Predicted data
  end.

Record BatchState : Type := mkBatchState {
  batch_loading : bool;
  batch_error : option string;
  results : list (A * Outcome)
}.

Definition setBatchLoading (b : bool) (st : BatchState) : BatchState :=
  mkBatchState b (batch_error st) (results st).

Definition setBatchError (e : option string) (st : BatchState) : BatchState :=
  mkBatchState (batch_loading st) e (results st).

Definition setResults (r : list (A * Outcome)) (st : BatchState)
    : BatchState :=
  mkBatchState (batch_loading st) (batch_error st) r.

(** [predictBatch(animalDataArray)]: [None] is an argument that is not an
    array, and [fetch i a] is the reply to the [i]-th request, made for the
    animal [a]. *)
Definition predictBatch (animalDataArray : option (list A))
    (fetch : nat -> A -> Reply) (st : BatchState)
    : BatchState * option (list (A * Outcome)) :=
  let st := setResults [] (setBatchError None (setBatchLoading true st)) in
  match animalDataArray with
  | None =>
      let errorMessage := "Input must be an array of animal data objects" in
      (setBatchLoading false (setBatchError (Some errorMessage) st), None)
  | Some arr =>
      let predictions :=
        forEach (fun predictions animalData i =>
                   predictions
                   ++ [(animalData, predictBatch_item (fetch i animalData))])
          arr [] in
      (setBatchLoading false (setResults predictions st), Some predictions)
  end.

End Hooks.
End UsePrediction.

(** ** The insight of the selected node *)

Module Insight.
Record t : Type := mk {
  score : Q;
  risk : string;
  insight : string
}.
End Insight.

(** The object [riskInsights], with its keys in the order in which they are
    written. *)
Definition riskInsights : list (string * Insight.t) :=
  [ ("Slow Reproduction",
     Insight.mk 0.592 "VERY HIGH"
       "Cannot recover quickly from population loss");
    ("Fast Reproduction",
     Insight.mk 0.324 "HIGH" "Still vulnerable despite fast reproduction");
    ("Decreasing",
     Insight.mk 0.540 "VERY HIGH" "Most important predictor of future risk");
    ("Small Range",
     Insight.mk 0.282 "MEDIUM" "28% of small-range animals at risk");
    ("Medium Range",
     Insight.mk 0.136 "LOW" "Geographic diversity provides some protection");
    ("Large Range",
     Insight.mk 0.114 "VERY LOW" "Widespread species are more resilient") ].

(** A value that is [null], [undefined] or an object. *)
Inductive Nullable (A : Type) : Type :=
  | IsNull
  | IsUndefined
  | IsObject (a : A).

Arguments IsNull {A}.
Arguments IsUndefined {A}.
Arguments IsObject {A} a.

(** [obj[key]] on an object literal. *)
Fixpoint get_property {V : Type} (obj : list (string * V)) (key : string)
    : option V :=
  match obj with
  | [] => None
  | (k, v) :: obj' => if String.eqb k key then Some v else get_property obj' key
  end.

(** [selectedNodeData].  The argument of [key.includes] is the selected id,
    a number, which [includes] turns into a string: [toString] is that
    conversion. *)
Definition selectedNodeData (toString : Z -> string)
    (selectedNode : option Z) : Nullable Insight.t :=
  match selectedNode with
  | Some selected =>
      let literal :=
        [ ("Slow Reproduction", get_property riskInsights "Slow Reproduction");
          ("Fast Reproduction", get_property riskInsights "Fast Reproduction");
          ("Decreasing", get_property riskInsights "Decreasing");
          ("Small Range", get_property riskInsights "Small Range");
          ("Medium Range", get_property riskInsights "Medium Range");
          ("Large Range", get_property riskInsights "Large Range") ] in
      match find (fun key => includes key (toString selected))
                 (fst <$> riskInsights) with
      | Some key =>
          match get_property literal key with
          | Some (Some i) => IsObject i
          | _ => IsUndefined
          end
      | None => IsUndefined
      end
  | None => IsNull
  end.

(** The decimal digits. *)
Definition is_digit (c : Ascii.ascii) : bool :=
  (48 <=? Ascii.nat_of_ascii c)%nat && (Ascii.nat_of_ascii c <=? 57)%nat.

(** The string has a decimal digit, as the text of every number has. *)
Definition has_digit (s : string) : Prop :=
  exists c, In c (String.list_ascii_of_string s) /\ is_digit c = true.

(** ** The layer labels *)

Definition layerLabels : list string :=
  [ "ACTIVITY" +:+ String (Ascii.ascii_of_nat 10) "PATTERN";
    "REPRODUCTION" +:+ String (Ascii.ascii_of_nat 10) "RATE";
    "GEOGRAPHIC" +:+ String (Ascii.ascii_of_nat 10) "RANGE";
    "POPULATION" +:+ String (Ascii.ascii_of_nat 10) "TREND";
    "RISK" +:+ String (Ascii.ascii_of_nat 10) "PREDICTION" ].

(** A [text] element with its [x], its [y] and its content. *)
Module TextEl.
Record t : Type := mk {
  x : Q;
  y : Q;
  text : string
}.
End TextEl.

(** The body of [layerLabels.forEach]. *)
Definition drawLayerLabel (c : Canvas.t) (labels : list TextEl.t)
    (label : string) (i : nat) : list TextEl.t :=
  let x := Margin.left (Canvas.margin c) + num i * layerWidth c in
  labels ++ [TextEl.mk x 25 label].

Definition drawLayerLabels (c : Canvas.t) : list TextEl.t :=
  forEach (drawLayerLabel c) layerLabels [].

(** ** The list of sample animals *)

Module UseFetchAnimals.
Section Hook.

Context {D : Type}.

Record State : Type := mkState {
  animals : option D;
  loading : bool;
  error : option string
}.

Definition setAnimals (a : option D) (st : State) : State :=
  mkState a (loading st) (error st).

Definition setLoading (b : bool) (st : State) : State :=
  mkState (animals st) b (error st).

Definition setError (e : option string) (st : State) : State :=
  mkState (animals st) (loading st) e.

(** The [try] block of [fetchAnimals]: a reply that is not ok is not read
    any further. *)
Definition fetchAnimals_try (reply : UsePrediction.Reply (D := D))
    : UsePrediction.Thrown + option D :=
  match reply with
  | UsePrediction.Rejected e => inl e
  | UsePrediction.NotOk status _ =>
      inl (UsePrediction.ErrorObject
             ("HTTP error! status: " +:+ pretty status))
  | UsePrediction.Responded (UsePrediction.BodyThrows e) => inl e
  | UsePrediction.Responded (UsePrediction.BodyValue data) => inr data
  end.

(** [fetchAnimals()], with the state after it and the value it resolves
    to. *)
Definition fetchAnimals (reply : UsePrediction.Reply (D := D)) (st : State)
    : State * option D :=
  let st := setError None (setLoading true st) in
  match fetchAnimals_try reply with
  | inr data => (setLoading false (setAnimals data st), data)
  | inl err =>
      let errorMessage :=
        UsePrediction.message_of "Unknown error occurred" err in
      (setLoading false (setError (Some errorMessage) st), None)
  end.

End Hook.
End UseFetchAnimals.

(** * Properties *)

(** ** Rounding to binary64 *)

Lemma pow2_pos (e : Z) : 0 < 2 ^ e.
Proof. apply Qpower_0_lt. reflexivity. Qed.

Lemma pow2_succ (e : Z) : 2 ^ (e + 1) == 2 * 2 ^ e.
Proof.
  rewrite Qpower_plus by (intros H; discriminate H).
  rewrite Qpower_1_r. ring.
Qed.

Lemma pow2_inject (n : Z) : (0 <= n)%Z -> inject_Z (2 ^ n) == 2 ^ n.
Proof. intros Hn. now rewrite Zpower_Qpower. Qed.

Lemma log2_floor_spec (q : Q) :
  0 < q -> 2 ^ log2_floor q <= q /\ q < 2 ^ (log2_floor q + 1).
Proof.
  intros Hq. destruct q as [n d].
  assert (Hn : (0 < n)%Z).
  { unfold Qlt in Hq. simpl in Hq. lia. }
  unfold log2_floor. simpl Qnum. simpl Qden.
  set (a := Z.log2 n). set (b := Z.log2 (Z.pos d)).
  assert (Ha0 : (0 <= a)%Z) by apply Z.log2_nonneg.
  assert (Hb0 : (0 <= b)%Z) by apply Z.log2_nonneg.
  destruct (Z.log2_spec n Hn) as [Ha1 Ha2]. fold a in Ha1, Ha2.
  destruct (Z.log2_spec (Z.pos d) eq_refl) as [Hb1 Hb2]. fold b in Hb1, Hb2.
  assert (HA1 : 2 ^ a <= inject_Z n).
  { rewrite <- pow2_inject by exact Ha0. now rewrite <- Zle_Qle. }
  assert (HA2 : inject_Z n < 2 * 2 ^ a).
  { rewrite <- pow2_succ, <- pow2_inject by lia. now rewrite <- Zlt_Qlt. }
  assert (HB1 : 2 ^ b <= inject_Z (Z.pos d)).
  { rewrite <- pow2_inject by exact Hb0. now rewrite <- Zle_Qle. }
  assert (HB2 : inject_Z (Z.pos d) < 2 * 2 ^ b).
  { rewrite <- pow2_succ, <- pow2_inject by lia. now rewrite <- Zlt_Qlt. }
  pose proof (pow2_pos a) as HA. pose proof (pow2_pos b) as HB.
  assert (Hk : 2 ^ (a - b) == 2 ^ a / 2 ^ b).
  { apply Qpower_minus. intros H; discriminate H. }
  assert (Hq' : n # d == inject_Z n / inject_Z (Z.pos d)) by apply Qmake_Qdiv.
  set (N := inject_Z n) in *. set (D := inject_Z (Z.pos d)) in *.
  set (A := 2 ^ a) in *. set (B := 2 ^ b) in *.
  assert (HD : 0 < D) by lra.
  assert (Hup : n # d < 2 * (A / B)).
  { rewrite Hq'. apply Qlt_shift_div_r; [exact HD |].
    assert (2 * (A / B) * D == (2 * A * D) / B) as -> by (field; lra).
    apply Qlt_shift_div_l; [exact HB |]. nra. }
  assert (Hlo : A / B <= 2 * (n # d)).
  { rewrite Hq'. apply Qle_shift_div_r; [exact HB |].
    assert (2 * (N / D) * B == (2 * N * B) / D) as -> by (field; lra).
    apply Qle_shift_div_l; [exact HD |]. nra. }
  destruct (Qle_bool (2 ^ (a - b)) (n # d)) eqn:E.
  - apply Qle_bool_iff in E. split; [exact E |].
    rewrite pow2_succ, Hk. exact Hup.
  - assert (Hlt : n # d < 2 ^ (a - b)).
    { apply Qnot_le_lt. intros H. apply Qle_bool_iff in H. congruence. }
    assert (Hs : 2 ^ (a - b) == 2 * 2 ^ (a - b - 1)).
    { rewrite <- pow2_succ. now replace (a - b - 1 + 1)%Z with (a - b)%Z by lia. }
    split.
    + rewrite Hk in Hs. lra.
    + now replace (a - b - 1 + 1)%Z with (a - b)%Z by lia.
Qed.

Lemma log2_floor_unique (q : Q) (k : Z) :
  2 ^ k <= q -> q < 2 ^ (k + 1) -> log2_floor q = k.
Proof.
  intros H1 H2.
  assert (Hq : 0 < q) by (pose proof (pow2_pos k); lra).
  destruct (log2_floor_spec q Hq) as [H3 H4].
  assert (2 ^ k < 2 ^ (log2_floor q + 1)) as Ha by lra.
  assert (2 ^ log2_floor q < 2 ^ (k + 1)) as Hb by lra.
  apply Qpower_lt_compat_l_inv in Ha; [| reflexivity].
  apply Qpower_lt_compat_l_inv in Hb; [| reflexivity].
  lia.
Qed.

Lemma log2_floor_mono (q1 q2 : Q) :
  0 < q1 -> q1 <= q2 -> (log2_floor q1 <= log2_floor q2)%Z.
Proof.
  intros H1 H12.
  destruct (log2_floor_spec q1 H1) as [Ha _].
  destruct (log2_floor_spec q2) as [_ Hb]; [lra |].
  assert (2 ^ log2_floor q1 < 2 ^ (log2_floor q2 + 1)) as H by lra.
  apply Qpower_lt_compat_l_inv in H; [| reflexivity]. lia.
Qed.

Lemma log2_floor_comp (q1 q2 : Q) :
  0 < q1 -> q1 == q2 -> log2_floor q1 = log2_floor q2.
Proof.
  intros H1 H12. symmetry.
  destruct (log2_floor_spec q1 H1) as [Ha Hb].
  apply log2_floor_unique; lra.
Qed.

Lemma round_half_even_bounds (r : Q) :
  (Qfloor r <= round_half_even r <= Qfloor r + 1)%Z.
Proof.
  unfold round_half_even.
  destruct (Qcompare (r - inject_Z (Qfloor r)) (1 # 2));
    [destruct (Z.even (Qfloor r)) | |]; lia.
Qed.

Lemma round_half_even_comp (r1 r2 : Q) :
  r1 == r2 -> round_half_even r1 = round_half_even r2.
Proof.
  intros H. unfold round_half_even.
  rewrite (Qfloor_comp _ _ H).
  assert (Hc : Qcompare (r1 - inject_Z (Qfloor r2)) (1 # 2) =
               Qcompare (r2 - inject_Z (Qfloor r2)) (1 # 2))
    by (apply Qcompare_comp; [now rewrite H | reflexivity]).
  now rewrite Hc.
Qed.

Lemma round_half_even_Z (n : Z) : round_half_even (inject_Z n) = n.
Proof.
  unfold round_half_even. rewrite Qfloor_Z.
  assert (Hc : Qcompare (inject_Z n - inject_Z n) (1 # 2) = Lt).
  { apply -> Qlt_alt. assert (inject_Z n - inject_Z n == 0) as -> by ring.
    reflexivity. }
  now rewrite Hc.
Qed.

Lemma round_half_even_mono (r1 r2 : Q) :
  r1 <= r2 -> (round_half_even r1 <= round_half_even r2)%Z.
Proof.
  intros H.
  pose proof (Qfloor_resp_le _ _ H) as Hf.
  pose proof (round_half_even_bounds r1) as [_ Hb1].
  pose proof (round_half_even_bounds r2) as [Hb2 _].
  destruct (Z.eq_dec (Qfloor r1) (Qfloor r2)) as [E | N]; [| lia].
  clear Hf Hb1 Hb2. unfold round_half_even. rewrite E.
  destruct (Qcompare (r1 - inject_Z (Qfloor r2)) (1 # 2)) eqn:C1;
    destruct (Qcompare (r2 - inject_Z (Qfloor r2)) (1 # 2)) eqn:C2;
    try (destruct (Z.even (Qfloor r2))); try lia;
    repeat match goal with
      | Hc : Qcompare _ _ = Eq |- _ => apply Qeq_alt in Hc
      | Hc : Qcompare _ _ = Lt |- _ => apply Qlt_alt in Hc
      | Hc : Qcompare _ _ = Gt |- _ => apply Qgt_alt in Hc
      end; lra.
Qed.

Lemma exponent64_mono (q1 q2 : Q) :
  0 < q1 -> q1 <= q2 -> (exponent64 q1 <= exponent64 q2)%Z.
Proof.
  intros H1 H12. unfold exponent64.
  pose proof (log2_floor_mono q1 q2 H1 H12). lia.
Qed.

Lemma pow2_split (a b : Z) : 2 ^ (a + b) == 2 ^ a * 2 ^ b.
Proof. apply Qpower_plus. intros H; discriminate H. Qed.

Lemma pow2_le (a b : Z) : (a <= b)%Z -> 2 ^ a <= 2 ^ b.
Proof. intros H. apply Qpower_le_compat_l; [exact H | discriminate]. Qed.

(** The scaled significand of a positive number lies below [2 ^ 53], and
    from [2 ^ 52] on unless the number is subnormal. *)
Lemma significand_upper (q : Q) : 0 < q -> q / 2 ^ exponent64 q < 2 ^ 53.
Proof.
  intros Hq. destruct (log2_floor_spec q Hq) as [_ Hup].
  pose proof (pow2_pos (exponent64 q)) as He.
  apply Qlt_shift_div_r; [exact He |].
  rewrite <- pow2_split.
  eapply Qlt_le_trans; [exact Hup |].
  apply pow2_le. unfold exponent64. lia.
Qed.

Lemma significand_lower (q : Q) :
  0 < q -> (-1074 < exponent64 q)%Z -> 2 ^ 52 <= q / 2 ^ exponent64 q.
Proof.
  intros Hq He. destruct (log2_floor_spec q Hq) as [Hlo _].
  pose proof (pow2_pos (exponent64 q)) as Hp.
  apply Qle_shift_div_l; [exact Hp |].
  rewrite <- pow2_split.
  eapply Qle_trans; [| exact Hlo].
  apply pow2_le. unfold exponent64 in *. lia.
Qed.

Lemma nearest64_nonneg (q : Q) : 0 < q -> 0 <= nearest64 q.
Proof.
  intros Hq. unfold nearest64.
  pose proof (pow2_pos (exponent64 q)) as Hp.
  assert (0 <= q / 2 ^ exponent64 q).
  { apply Qle_shift_div_l; [exact Hp | lra]. }
  assert (0 <= round_half_even (q / 2 ^ exponent64 q))%Z.
  { rewrite <- (round_half_even_Z 0). now apply round_half_even_mono. }
  assert (0 <= inject_Z (round_half_even (q / 2 ^ exponent64 q))).
  { now rewrite <- (Zle_Qle 0). }
  nra.
Qed.

Lemma nearest64_mono (q1 q2 : Q) :
  0 < q1 -> q1 <= q2 -> nearest64 q1 <= nearest64 q2.
Proof.
  intros H1 H12.
  assert (H2 : 0 < q2) by lra.
  pose proof (exponent64_mono q1 q2 H1 H12) as He.
  unfold nearest64.
  set (e1 := exponent64 q1) in *. set (e2 := exponent64 q2) in *.
  pose proof (pow2_pos e1) as Hp1. pose proof (pow2_pos e2) as Hp2.
  destruct (Z.eq_dec e1 e2) as [E | N].
  - rewrite <- E. apply Qmult_le_compat_r; [| lra].
    rewrite <- Zle_Qle. apply round_half_even_mono.
    apply Qle_shift_div_l; [exact Hp1 |].
    assert (q1 / 2 ^ e1 * 2 ^ e1 == q1) as -> by (field; lra).
    exact H12.
  - assert (Hlt : (e1 < e2)%Z) by lia.
    assert (Hu : inject_Z (round_half_even (q1 / 2 ^ e1)) <= 2 ^ 53).
    { rewrite <- (pow2_inject 53) by lia. rewrite <- Zle_Qle.
      pose proof (round_half_even_mono (q1 / 2 ^ e1) (inject_Z (2 ^ 53))) as Hm.
      rewrite round_half_even_Z in Hm. apply Hm.
      rewrite pow2_inject by lia.
      apply Qlt_le_weak. now apply significand_upper. }
    assert (Hl : 2 ^ 52 <= inject_Z (round_half_even (q2 / 2 ^ e2))).
    { rewrite <- (pow2_inject 52) by lia. rewrite <- Zle_Qle.
      pose proof (round_half_even_mono (inject_Z (2 ^ 52)) (q2 / 2 ^ e2)) as Hm.
      rewrite round_half_even_Z in Hm. apply Hm.
      rewrite pow2_inject by lia.
      apply significand_lower; [exact H2 |].
      assert (-1074 <= e1)%Z by (unfold e1, exponent64; lia). fold e2. lia. }
    apply Qle_trans with (2 ^ 53 * 2 ^ e1).
    + apply Qmult_le_compat_r; [exact Hu | lra].
    + apply Qle_trans with (2 ^ 52 * 2 ^ e2).
      * rewrite <- !pow2_split. apply pow2_le. lia.
      * apply Qmult_le_compat_r; [exact Hl | lra].
Qed.

Lemma nearest64_comp (q1 q2 : Q) :
  0 < q1 -> q1 == q2 -> nearest64 q1 == nearest64 q2.
Proof.
  intros H1 H12. unfold nearest64, exponent64.
  rewrite (log2_floor_comp q1 q2 H1 H12).
  set (e := Z.max (log2_floor q2 - 52) (-1074)).
  assert (Hr : round_half_even (q1 / 2 ^ e) = round_half_even (q2 / 2 ^ e))
    by (apply round_half_even_comp; now rewrite H12).
  now rewrite Hr.
Qed.

Lemma round64_pos_comp (q1 q2 : Q) :
  0 < q1 -> q1 == q2 -> round64_pos q1 = round64_pos q2.
Proof.
  intros H1 H12. unfold round64_pos.
  pose proof (nearest64_comp q1 q2 H1 H12) as Hn.
  assert (Hb : Qle_bool (2 ^ 1024) (nearest64 q1) =
               Qle_bool (2 ^ 1024) (nearest64 q2)).
  { destruct (Qle_bool (2 ^ 1024) (nearest64 q2)) eqn:E.
    - apply Qle_bool_iff. apply Qle_bool_iff in E. now rewrite Hn.
    - destruct (Qle_bool (2 ^ 1024) (nearest64 q1)) eqn:E1; [| reflexivity].
      apply Qle_bool_iff in E1. rewrite Hn in E1.
      apply Qle_bool_iff in E1. congruence. }
  rewrite Hb. destruct (Qle_bool (2 ^ 1024) (nearest64 q2)); [reflexivity |].
  f_equal. now apply Qred_complete.
Qed.

Lemma round64_comp (q1 q2 : Q) : q1 == q2 -> round64 q1 = round64 q2.
Proof.
  intros H. unfold round64.
  assert (Hc : Qcompare q1 0 = Qcompare q2 0)
    by (apply Qcompare_comp; [exact H | reflexivity]).
  rewrite <- Hc.
  destruct (Qcompare q1 0) eqn:C; [reflexivity | |].
  - apply Qlt_alt in C. f_equal.
    apply round64_pos_comp; [lra | now rewrite H].
  - apply Qgt_alt in C. now apply round64_pos_comp.
Qed.

Lemma round64_pos_cases (q : Q) :
  0 < q ->
  (round64_pos q = PlusInfinity /\ 2 ^ 1024 <= nearest64 q) \/
  (exists x : Q, round64_pos q = Finite x /\ x == nearest64 q /\
                 0 <= x /\ x < 2 ^ 1024).
Proof.
  intros Hq. unfold round64_pos.
  destruct (Qle_bool (2 ^ 1024) (nearest64 q)) eqn:E.
  - left. split; [reflexivity |]. now apply Qle_bool_iff.
  - right. exists (Qred (nearest64 q)).
    split; [reflexivity |]. split; [apply Qred_correct |].
    rewrite Qred_correct. split; [now apply nearest64_nonneg |].
    apply Qnot_le_lt. intros H. apply Qle_bool_iff in H. congruence.
Qed.

Lemma round64_pos_mono (q1 q2 : Q) :
  0 < q1 -> q1 <= q2 -> le64 (round64_pos q1) (round64_pos q2).
Proof.
  intros H1 H12.
  pose proof (nearest64_mono q1 q2 H1 H12) as Hn.
  destruct (round64_pos_cases q1 H1) as [[-> Ha] | (x & -> & Hx & _ & Hxa)];
    (destruct (round64_pos_cases q2) as [[-> Hb] | (y & -> & Hy & _ & Hyb)];
     [lra | | ]); simpl; try exact I; lra.
Qed.

Lemma round64_mono (q1 q2 : Q) :
  q1 <= q2 -> le64 (round64 q1) (round64 q2).
Proof.
  intros H. unfold round64.
  destruct (Qcompare q1 0) eqn:C1; destruct (Qcompare q2 0) eqn:C2;
    repeat match goal with
      | Hc : Qcompare _ _ = Eq |- _ => apply Qeq_alt in Hc
      | Hc : Qcompare _ _ = Lt |- _ => apply Qlt_alt in Hc
      | Hc : Qcompare _ _ = Gt |- _ => apply Qgt_alt in Hc
      end; try lra.
  - simpl. lra.
  - destruct (round64_pos_cases q2) as [[-> _] | (y & -> & _ & Hy & _)];
      [lra | exact I | simpl; lra].
  - destruct (round64_pos_cases (- q1)) as [[-> _] | (x & -> & _ & Hx & _)];
      [lra | exact I | simpl; lra].
  - assert (Hm : le64 (round64_pos (- q2)) (round64_pos (- q1)))
      by (apply round64_pos_mono; lra).
    destruct (round64_pos (- q1)), (round64_pos (- q2)); simpl in *;
      try tauto; lra.
  - destruct (round64_pos_cases (- q1)) as [[-> _] | (x & -> & _ & Hx & _)];
      [lra | |];
      (destruct (round64_pos_cases q2) as [[-> _] | (y & -> & _ & Hy & _)];
       [lra | |]); simpl; try exact I; lra.
  - now apply round64_pos_mono.
Qed.

Lemma round64_refl (q : Q) : le64 (round64 q) (round64 q).
Proof. apply round64_mono. apply Qle_refl. Qed.

Lemma le64_refl (a b : F64) : le64 a b -> le64 a a.
Proof.
  destruct a, b; simpl; try tauto; intros _; apply Qle_refl.
Qed.

(** *** The doubles are fixed points of the rounding *)

Lemma nearest64_fix (x : Q) (M e : Z) :
  (0 < M <= 2 ^ 53)%Z -> (-1074 <= e)%Z ->
  x == inject_Z M * 2 ^ e ->
  nearest64 x == x.
Proof.
  intros [HM0 HM] He Hx.
  pose proof (pow2_pos e) as Hp.
  assert (HMq : 0 < inject_Z M) by (now rewrite <- (Zlt_Qlt 0)).
  assert (HMu : inject_Z M <= 2 ^ 53).
  { rewrite <- (pow2_inject 53) by lia. now rewrite <- Zle_Qle. }
  assert (Hx0 : 0 < x) by (rewrite Hx; nra).
  destruct (log2_floor_spec x Hx0) as [Hlo Hup].
  assert (Hint : exists K : Z, x / 2 ^ exponent64 x == inject_Z K).
  { destruct (Z_le_gt_dec (exponent64 x) e) as [Hle | Hgt].
    - exists (M * 2 ^ (e - exponent64 x))%Z.
      rewrite inject_Z_mult, pow2_inject by lia.
      set (e' := exponent64 x) in *. pose proof (pow2_pos e').
      rewrite Hx. rewrite Qpower_minus by (intros H'; discriminate H').
      field. lra.
    - exists (2 ^ 52)%Z.
      assert (HL : (e + 53 <= log2_floor x)%Z)
        by (unfold exponent64 in Hgt; lia).
      assert (Hx1 : x <= 2 ^ (e + 53)).
      { rewrite Hx, pow2_split, (Qmult_comm (2 ^ e)).
        apply Qmult_le_compat_r; [exact HMu | lra]. }
      assert (Hx2 : 2 ^ (e + 53) <= x).
      { eapply Qle_trans; [| exact Hlo]. now apply pow2_le. }
      assert (Hxe : x == 2 ^ (e + 53)) by lra.
      assert (HLe : log2_floor x = (e + 53)%Z).
      { apply log2_floor_unique; [lra |].
        rewrite Hxe. apply Qpower_lt_compat_l; [lia | reflexivity]. }
      assert (Hex : exponent64 x = (e + 1)%Z)
        by (unfold exponent64; rewrite HLe; lia).
      rewrite Hex, Hxe, pow2_inject by lia.
      replace (e + 53)%Z with (52 + (e + 1))%Z by lia.
      rewrite pow2_split. field.
      pose proof (pow2_pos (e + 1)). lra. }
  destruct Hint as [K HK].
  unfold nearest64.
  rewrite (round_half_even_comp _ _ HK), round_half_even_Z, <- HK.
  field. pose proof (pow2_pos (exponent64 x)). lra.
Qed.

Lemma round64_pos_idem (q x : Q) :
  0 < q -> round64_pos q = Finite x -> 0 < x -> round64_pos x = Finite x.
Proof.
  intros Hq Hr Hx.
  unfold round64_pos in Hr.
  destruct (Qle_bool (2 ^ 1024) (nearest64 q)) eqn:E; [discriminate Hr |].
  injection Hr as Hr.
  assert (Hxn : x == nearest64 q) by (rewrite <- Hr; apply Qred_correct).
  assert (Hfin : x < 2 ^ 1024).
  { rewrite Hxn. apply Qnot_le_lt. intros H.
    apply Qle_bool_iff in H. congruence. }
  set (M := round_half_even (q / 2 ^ exponent64 q)).
  assert (HxM : x == inject_Z M * 2 ^ exponent64 q) by exact Hxn.
  pose proof (pow2_pos (exponent64 q)) as Hp.
  assert (HM0 : (0 < M)%Z).
  { destruct (Z_lt_le_dec 0 M) as [H | H]; [exact H |].
    rewrite Zle_Qle in H. change (inject_Z 0) with 0 in H. nra. }
  assert (HMu : (M <= 2 ^ 53)%Z).
  { pose proof (round_half_even_mono (q / 2 ^ exponent64 q)
                  (inject_Z (2 ^ 53))) as Hm.
    rewrite round_half_even_Z in Hm. apply Hm.
    rewrite pow2_inject by lia.
    apply Qlt_le_weak. now apply significand_upper. }
  assert (He : (-1074 <= exponent64 q)%Z) by (unfold exponent64; lia).
  pose proof (nearest64_fix x M (exponent64 q) (conj HM0 HMu) He HxM) as Hfix.
  unfold round64_pos.
  assert (Hb : Qle_bool (2 ^ 1024) (nearest64 x) = false).
  { destruct (Qle_bool (2 ^ 1024) (nearest64 x)) eqn:E'; [| reflexivity].
    apply Qle_bool_iff in E'. lra. }
  rewrite Hb. f_equal.
  transitivity (Qred (nearest64 q)); [| exact Hr].
  apply Qred_complete. now rewrite Hfix.
Qed.

Lemma round64_pos_zero (q x : Q) :
  0 < q -> round64_pos q = Finite x -> x == 0 -> x = 0.
Proof.
  intros Hq Hr Hx. unfold round64_pos in Hr.
  destruct (Qle_bool (2 ^ 1024) (nearest64 q)); [discriminate Hr |].
  injection Hr as Hr. rewrite <- Hr in Hx |- *.
  rewrite Qred_correct in Hx. now rewrite (Qred_complete _ _ Hx).
Qed.

Lemma round64_fix (q x : Q) : round64 q = Finite x -> round64 x = Finite x.
Proof.
  unfold round64 at 1. intros Hr.
  destruct (Qcompare q 0) eqn:C.
  - injection Hr as <-. reflexivity.
  - apply Qlt_alt in C.
    destruct (round64_pos (- q)) as [y | | |] eqn:Hy; try discriminate Hr.
    injection Hr as <-.
    destruct (round64_pos_cases (- q)) as [[Hc _] | (y' & Hc & _ & Hy0 & _)];
      [lra | congruence |].
    rewrite Hy in Hc. injection Hc as <-.
    destruct (Qle_lt_or_eq _ _ Hy0) as [Hpos | Hz].
    + unfold round64.
      assert (Hc : Qcompare (- y) 0 = Lt) by (apply -> Qlt_alt; lra).
      rewrite Hc.
      rewrite (round64_pos_comp (- - y) y) by (try ring; lra).
      rewrite (round64_pos_idem (- q) y); [reflexivity | lra | exact Hy | exact Hpos].
    + rewrite (round64_pos_zero (- q) y); [reflexivity | lra | exact Hy |].
      now symmetry.
  - apply Qgt_alt in C.
    destruct (round64_pos_cases q) as [[Hc _] | (y' & Hc & _ & Hy0 & _)];
      [lra | congruence |].
    rewrite Hr in Hc. injection Hc as <-.
    destruct (Qle_lt_or_eq _ _ Hy0) as [Hpos | Hz].
    + unfold round64.
      assert (Hc : Qcompare x 0 = Gt) by (apply -> Qgt_alt; lra).
      rewrite Hc. now apply (round64_pos_idem q).
    + rewrite (round64_pos_zero q x); [reflexivity | lra | exact Hr |].
      now symmetry.
Qed.

(** A finite result of the rounding is written in lowest terms. *)
Lemma round64_canonical (q x : Q) : round64 q = Finite x -> Qred x = x.
Proof.
  assert (Hrr : forall r, Qred (Qred r) = Qred r)
    by (intros r; apply Qred_complete, Qred_correct).
  unfold round64, round64_pos.
  destruct (Qcompare q 0).
  - intros [= <-]. reflexivity.
  - destruct (Qle_bool (2 ^ 1024) (nearest64 (- q))); [discriminate |].
    simpl. intros [= <-]. now rewrite Qred_opp, Hrr.
  - destruct (Qle_bool (2 ^ 1024) (nearest64 q)); [discriminate |].
    intros [= <-]. apply Hrr.
Qed.

(** The finite results of the rounding are doubles. *)
Lemma round64_idem (q x : Q) : round64 q = Finite x -> double x.
Proof.
  intros Hr. unfold double.
  rewrite (round64_canonical q x Hr). exact (round64_fix q x Hr).
Qed.

Lemma double_le_round64 (x t t' : Q) :
  double x -> round64 t = Finite t' -> x <= t -> x <= t'.
Proof.
  intros Hx Ht Hle.
  pose proof (round64_mono x t Hle) as H.
  rewrite Hx, Ht in H. simpl in H. now rewrite Qred_correct in H.
Qed.

Lemma gt_true (a b : Q) : gt a b = true <-> b < a.
Proof.
  unfold gt. rewrite negb_true_iff.
  destruct (Qle_bool a b) eqn:E.
  - apply Qle_bool_iff in E. split; [discriminate | lra].
  - split; [intros _ | reflexivity].
    destruct (Qlt_le_dec b a) as [H | H]; [exact H |].
    apply Qle_bool_iff in H. congruence.
Qed.

Lemma gt_false (a b : Q) : gt a b = false <-> a <= b.
Proof.
  unfold gt. rewrite negb_false_iff. apply Qle_bool_iff.
Qed.

Lemma gt_cases (a b : Q) :
  (gt a b = true /\ b < a) \/ (gt a b = false /\ a <= b).
Proof.
  destruct (gt a b) eqn:E.
  - left. split; [reflexivity | now apply gt_true].
  - right. split; [reflexivity | now apply gt_false].
Qed.



(** On a double, the comparison with the double of a literal that rounds
    downwards is the comparison with the literal itself. *)
Lemma gt64_threshold (x t t' : Q) :
  double x -> round64 t = Finite t' -> t' <= t ->
  gt64 (Finite x) (round64 t) = gt x t.
Proof.
  intros Hx Ht Hle. rewrite Ht. simpl.
  destruct (gt_cases x t') as [[-> H1] | [-> H1]];
    destruct (gt_cases x t) as [[-> H2] | [-> H2]];
    try reflexivity; exfalso.
  - pose proof (double_le_round64 x t t' Hx Ht H2). lra.
  - lra.
Qed.

(** The four thresholds round downwards, so the scale of the drawing is the
    scale on the real numbers at every double. *)
Lemma getRiskColor64_double (x : Q) :
  double x -> getRiskColor64 (Finite x) = getRiskColor x.
Proof.
  intros Hx. unfold getRiskColor64, getRiskColor.
  assert (H7 : exists t, round64 0.7 = Finite t /\ t <= 0.7)
    by (eexists; split;
        [vm_compute; reflexivity | apply Qle_bool_iff; vm_compute; reflexivity]).
  assert (H5 : exists t, round64 0.5 = Finite t /\ t <= 0.5)
    by (eexists; split;
        [vm_compute; reflexivity | apply Qle_bool_iff; vm_compute; reflexivity]).
  assert (H3 : exists t, round64 0.3 = Finite t /\ t <= 0.3)
    by (eexists; split;
        [vm_compute; reflexivity | apply Qle_bool_iff; vm_compute; reflexivity]).
  assert (H1 : exists t, round64 0.15 = Finite t /\ t <= 0.15)
    by (eexists; split;
        [vm_compute; reflexivity | apply Qle_bool_iff; vm_compute; reflexivity]).
  destruct H7 as (t7 & E7 & L7), H5 as (t5 & E5 & L5),
           H3 as (t3 & E3 & L3), H1 as (t1 & E1 & L1).
  rewrite (gt64_threshold x 0.7 t7 Hx E7 L7),
          (gt64_threshold x 0.5 t5 Hx E5 L5),
          (gt64_threshold x 0.3 t3 Hx E3 L3),
          (gt64_threshold x 0.15 t1 Hx E1 L1).
  reflexivity.
Qed.

Lemma getRiskColor64_round64 (q x : Q) :
  round64 q = Finite x -> getRiskColor64 (round64 q) = getRiskColor x.
Proof.
  intros Hq. rewrite Hq. apply getRiskColor64_double.
  exact (round64_idem q x Hq).
Qed.

(** Every colour of the scale is the colour of a band. *)
Lemma getRiskColor64_band (score : F64) :
  exists b : RiskBand, getRiskColor64 score = bandColor b.
Proof.
  unfold getRiskColor64.
  destruct (gt64 score (round64 0.7)); [exists VeryHigh; reflexivity |].
  destruct (gt64 score (round64 0.5)); [exists High; reflexivity |].
  destruct (gt64 score (round64 0.3)); [exists Medium; reflexivity |].
  destruct (gt64 score (round64 0.15)); [exists Low; reflexivity |].
  exists VeryLow. reflexivity.
Qed.

(** X21: the scale as the drawing calls it, on a double and with the
    thresholds rounded to binary64, gives the colour of the band in which
    the double lies by the decimal thresholds 0.7, 0.5, 0.3 and 0.15: each
    of the four rounds downwards, and no double lies between a threshold
    and its double.  Plus infinity has the colour of VeryHigh; minus
    infinity and NaN, for which every comparison fails, that of VeryLow. *)
Theorem getRiskColor_on_doubles (q x : Q) :
  round64 q = Finite x ->
  getRiskColor64 (round64 q) = getRiskColor x /\
  (exists b : RiskBand,
      getRiskColor64 (round64 q) = bandColor b /\ band_of_score x b) /\
  getRiskColor64 PlusInfinity = bandColor VeryHigh /\
  getRiskColor64 MinusInfinity = bandColor VeryLow /\
  getRiskColor64 NaN = bandColor VeryLow.
Proof.
  intros Hq.
  pose proof (getRiskColor64_round64 q x Hq) as Hc.
  split; [exact Hc |].
  split; [| repeat split; vm_compute; reflexivity].
  rewrite Hc. unfold getRiskColor.
  destruct (gt_cases x 0.7) as [[-> H7] | [-> H7]];
    [exists VeryHigh; split; [reflexivity | exact H7] |].
  destruct (gt_cases x 0.5) as [[-> H5] | [-> H5]];
    [exists High; split; [reflexivity | split; assumption] |].
  destruct (gt_cases x 0.3) as [[-> H3] | [-> H3]];
    [exists Medium; split; [reflexivity | split; assumption] |].
  destruct (gt_cases x 0.15) as [[-> H1] | [-> H1]];
    [exists Low; split; [reflexivity | split; assumption] |].
  exists VeryLow. split; [reflexivity | exact H1].
Qed.

Lemma getRiskColor_on_doubles_witness :
  exists x : Q,
    round64 0.7 = Finite x /\ x < 0.7 /\
    getRiskColor64 (round64 0.7) = bandColor High.
Proof.
  destruct (round64 0.7) as [x | | |] eqn:Hr;
    try (vm_compute in Hr; discriminate Hr).
  destruct (getRiskColor_on_doubles 0.7 x Hr) as (Hc & _).
  exists x. split; [reflexivity |].
  split; [vm_compute in Hr; injection Hr as <-; reflexivity |].
  rewrite <- Hr, Hc.
  vm_compute in Hr. injection Hr as <-. reflexivity.
Defined.

(** The mean of two scores is the binary64 one: the scores 0.1 and 0.2 have
    a mean above 0.15 and the colour of Low, where the real mean 0.15 has
    the colour of VeryLow. *)
Lemma avgScore_rounded :
  exists x : Q,
    avgScore 0.1 0.2 = Finite x /\ 0.15 < x /\
    getRiskColor64 (avgScore 0.1 0.2) = bandColor Low /\
    getRiskColor ((0.1 + 0.2) / 2) = bandColor VeryLow.
Proof.
  eexists. split; [vm_compute; reflexivity |].
  split; [reflexivity |]. split; vm_compute; reflexivity.
Qed.

(** ** Ribbon thickness *)

Lemma Qmax_cases (a b : Q) : Qmax a b = a \/ Qmax a b = b.
Proof.
  unfold Qmax, GenericMinMax.gmax. destruct (a ?= b); auto.
Qed.

Lemma foldl_Qmax_le (xs : list Q) (x : Q) :
  x <= foldl Qmax x xs /\ (forall y, y ∈ xs -> y <= foldl Qmax x xs).
Proof.
  revert x. induction xs as [| z xs IH]; intros x; simpl.
  - split; [lra | intros y Hy; inversion Hy].
  - destruct (IH (Qmax x z)) as [H1 H2].
    pose proof (Q.le_max_l x z). pose proof (Q.le_max_r x z).
    split; [lra |].
    intros y Hy. apply elem_of_cons in Hy as [-> | Hy]; [lra | auto].
Qed.

Lemma foldl_Qmax_elem (xs : list Q) (x : Q) :
  foldl Qmax x xs ∈ x :: xs.
Proof.
  revert x. induction xs as [| z xs IH]; intros x; simpl.
  - left.
  - specialize (IH (Qmax x z)).
    apply elem_of_cons in IH as [E | IH].
    + rewrite E. destruct (Qmax_cases x z) as [-> | ->].
      * left.
      * right. left.
    + right. right. exact IH.
Qed.

(** [maxValue] is the largest value of the dataset. *)
Lemma maxValue_spec (links : list Link.t) (link : Link.t) :
  link ∈ links ->
  exists m : Q,
    maxValue links = Finite m /\
    m ∈ (Link.value <$> links) /\
    (forall l, l ∈ links -> Link.value l <= m).
Proof.
  intros Hin. unfold maxValue.
  destruct links as [| l0 links]; [inversion Hin |].
  simpl. eexists. split; [reflexivity |]. split.
  - apply foldl_Qmax_elem.
  - intros l Hl.
    destruct (foldl_Qmax_le (Link.value <$> links) (Link.value l0)) as [H1 H2].
    apply elem_of_cons in Hl as [-> | Hl]; [exact H1 |].
    apply H2. apply list_elem_of_fmap. eauto.
Qed.

(** The quotient by a positive number is the rounded one. *)
Lemma div64_pos (v m : Q) :
  0 < m -> div64 (Finite v) (Finite m) = round64 (v / m).
Proof.
  intros Hm. unfold div64.
  destruct (Qeq_bool m 0) eqn:E; [| reflexivity].
  apply Qeq_bool_iff in E. lra.
Qed.

Lemma mul64_25_mono (a b : F64) :
  le64 a b -> le64 (mul64 a (Finite 25)) (mul64 b (Finite 25)).
Proof.
  intros H.
  destruct a as [x | | |], b as [y | | |]; simpl in H; try contradiction;
    unfold mul64; simpl signed;
    try (pose proof (round64_refl (x * 25)) as Hx;
         destruct (round64 (x * 25)); simpl in *; tauto);
    try (pose proof (round64_refl (y * 25)) as Hy;
         destruct (round64 (y * 25)); simpl in *; tauto);
    try exact I.
  apply round64_mono. lra.
Qed.

(** [(v / m) * 25] for a positive [m] and a value that is at most [m]: it
    is at most 25, it is 25 when the value is [m], and it grows with the
    value. *)
Lemma scaled_le_25 (v m : Q) :
  0 < m -> v <= m ->
  le64 (mul64 (div64 (Finite v) (Finite m)) (Finite 25)) (Finite 25).
Proof.
  intros Hm Hv. rewrite (div64_pos v m Hm).
  assert (H1 : round64 1 = Finite 1) by (vm_compute; reflexivity).
  assert (H25 : mul64 (Finite 1) (Finite 25) = Finite 25)
    by (vm_compute; reflexivity).
  rewrite <- H25, <- H1. apply mul64_25_mono. apply round64_mono.
  apply Qle_shift_div_r; lra.
Qed.

Lemma scaled_full (v m : Q) :
  0 < m -> v == m ->
  mul64 (div64 (Finite v) (Finite m)) (Finite 25) = Finite 25.
Proof.
  intros Hm Hv. rewrite (div64_pos v m Hm).
  assert (Hq : v / m == 1) by (rewrite Hv; field; lra).
  rewrite (round64_comp _ _ Hq). vm_compute. reflexivity.
Qed.

Lemma scaled_mono (a b m : Q) :
  0 < m -> b <= a ->
  le64 (mul64 (div64 (Finite b) (Finite m)) (Finite 25))
       (mul64 (div64 (Finite a) (Finite m)) (Finite 25)).
Proof.
  intros Hm Hab. rewrite !div64_pos by exact Hm.
  apply mul64_25_mono. apply round64_mono.
  apply Qle_shift_div_r; [exact Hm |].
  assert (a / m * m == a) as -> by (field; lra). exact Hab.
Qed.

(** [Math.max(2, y)] for [y] at most 25 is a finite number between 2 and
    25, and it grows with [y]. *)
Lemma Math_max_2_mono (y1 y2 : F64) :
  le64 y1 y2 -> le64 y2 (Finite 25) ->
  exists h1 h2 : Q,
    finite (Math_max (Finite 2) y1) = Some h1 /\
    finite (Math_max (Finite 2) y2) = Some h2 /\
    2 <= h1 /\ h1 <= h2 /\ h2 <= 25 /\
    (y2 = Finite 25 -> h2 == 25).
Proof.
  intros H12 H2.
  destruct y1 as [z1 | | |], y2 as [z2 | | |]; simpl in H12, H2;
    try contradiction; simpl; do 2 eexists;
    (split; [reflexivity |]); (split; [reflexivity |]).
  - pose proof (Q.le_max_l 2 z1). pose proof (Q.le_max_l 2 z2).
    split; [assumption |].
    split; [apply Q.max_le_compat_l; exact H12 |].
    split; [apply Q.max_lub; lra |].
    intros E. injection E as ->. apply Q.max_r. lra.
  - pose proof (Q.le_max_l 2 z2).
    split; [lra |]. split; [assumption |].
    split; [apply Q.max_lub; lra |].
    intros E. injection E as ->. apply Q.max_r. lra.
  - split; [lra |]. split; [lra |]. split; [lra |]. intros E. discriminate E.
Qed.

Lemma linkHeight_Finite (links : list Link.t) (link : Link.t) (m : Q) :
  maxValue links = Finite m ->
  linkHeight links link =
  finite (Math_max (Finite 2)
            (mul64 (div64 (Finite (Link.value link)) (Finite m)) (Finite 25))).
Proof. intros Hm. unfold linkHeight. now rewrite Hm. Qed.

(** For a positive [maxValue], the thickness of a link whose value is at
    most [maxValue] is a number between 2 and 25, and it is 25 when the
    value is [maxValue]. *)
Lemma linkHeight_bounds (links : list Link.t) (link : Link.t) (m : Q) :
  maxValue links = Finite m -> 0 < m -> Link.value link <= m ->
  exists h : Q,
    linkHeight links link = Some h /\ 2 <= h /\ h <= 25 /\
    (Link.value link == m -> h == 25).
Proof.
  intros Hm Hpos Hle. rewrite (linkHeight_Finite links link m Hm).
  pose proof (scaled_le_25 _ _ Hpos Hle) as Hs.
  destruct (Math_max_2_mono _ _ (le64_refl _ _ Hs) Hs)
    as (h1 & h2 & H1 & H2 & Hlo & Hmid & Hhi & Hfull).
  rewrite H1 in H2. injection H2 as <-.
  exists h1. split; [exact H1 |]. split; [exact Hlo |]. split; [exact Hhi |].
  intros Heq. apply Hfull. now apply scaled_full.
Qed.

(** For a positive [maxValue], the thickness grows with the value. *)
Lemma linkHeight_mono (links : list Link.t) (a b : Link.t) (m : Q) :
  maxValue links = Finite m -> 0 < m ->
  Link.value a <= m -> Link.value b <= Link.value a ->
  exists ha hb : Q,
    linkHeight links a = Some ha /\ linkHeight links b = Some hb /\ hb <= ha.
Proof.
  intros Hm Hpos Hle Hba.
  rewrite (linkHeight_Finite links a m Hm), (linkHeight_Finite links b m Hm).
  destruct (Math_max_2_mono _ _ (scaled_mono _ _ m Hpos Hba)
              (scaled_le_25 _ _ Hpos Hle))
    as (hb & ha & H1 & H2 & _ & Hmid & _).
  exists ha, hb. auto.
Qed.

(** The outline of a ribbon starts on the middle of the right edge of the
    source, and its second curve runs [linkHeight / 2] above the first. *)
Lemma ribbon_offset (src tgt : Pos.t) (h : Q) :
  exists cp1x cp1y cp2x cp2y cp3x cp3y cp4x cp4y : Q,
    ribbon src tgt h =
    [ moveTo (Pos.x src + Pos.width src) (Pos.y src + Pos.height src / 2);
      bezierCurveTo cp1x cp1y cp2x cp2y
        (Pos.x tgt) (Pos.y tgt + Pos.height tgt / 2);
      lineTo (Pos.x tgt) (Pos.y tgt + Pos.height tgt / 2 - h / 2);
      bezierCurveTo cp3x cp3y cp4x cp4y
        (Pos.x src + Pos.width src)
        (Pos.y src + Pos.height src / 2 - h / 2);
      closePath ].
Proof. unfold ribbon. do 8 eexists. reflexivity. Qed.

(** C7: in a dataset, a link with a larger positive value is at least as
    thick as a link with a smaller value. *)
Theorem linkHeight_monotone (links : list Link.t) (a b : Link.t) :
  a ∈ links -> b ∈ links ->
  0 < Link.value a ->
  Link.value b < Link.value a ->
  exists ha hb : Q,
    linkHeight links a = Some ha /\ linkHeight links b = Some hb /\ hb <= ha.
Proof.
  intros Ha Hb Hpos Hlt.
  destruct (maxValue_spec links a Ha) as (m & Hm & _ & Hmax).
  pose proof (Hmax a Ha) as Hle.
  apply (linkHeight_mono links a b m Hm); lra.
Qed.

Lemma linkHeight_monotone_witness :
  exists ha hb : Q,
    linkHeight links0 (Link.mk 0 4 80) = Some ha /\
    linkHeight links0 (Link.mk 0 3 10) = Some hb /\ hb <= ha.
Proof.
  apply (linkHeight_monotone links0 (Link.mk 0 4 80) (Link.mk 0 3 10)).
  - unfold links0. set_solver.
  - unfold links0. set_solver.
  - reflexivity.
  - reflexivity.
Defined.

(** ** Layout *)

Section Loops.

Context {A St : Type}.

(** An invariant kept by every iteration holds after the loop. *)
Lemma forEach_from_inv (P : St -> Prop) (body : St -> A -> nat -> St)
    (arr : list A) :
  forall (i : nat) (s : St),
    P s ->
    (forall s' j a, arr !! j = Some a -> P s' -> P (body s' a (i + j)%nat)) ->
    P (forEach_from body i arr s).
Proof.
  induction arr as [| a arr IH]; intros i s Hs Hkeep; simpl; [exact Hs |].
  apply IH.
  - specialize (Hkeep s 0%nat a eq_refl Hs).
    now rewrite Nat.add_0_r in Hkeep.
  - intros s' j a' Hj Hs'.
    specialize (Hkeep s' (S j) a' Hj Hs').
    now rewrite Nat.add_succ_r in Hkeep.
Qed.

(** A property set up by one iteration and kept by the others holds
    after the loop. *)
Lemma forEach_from_establish (P : St -> Prop) (body : St -> A -> nat -> St)
    (arr : list A) :
  forall (i : nat) (s : St) (j : nat) (a : A),
    arr !! j = Some a ->
    (forall s', P (body s' a (i + j)%nat)) ->
    (forall s' j' a', arr !! j' = Some a' -> P s' ->
                      P (body s' a' (i + j')%nat)) ->
    P (forEach_from body i arr s).
Proof.
  induction arr as [| a0 arr IH]; intros i s j a Hj Hset Hkeep;
    [inversion Hj |].
  assert (Hkeep' : forall s' j' a', arr !! j' = Some a' -> P s' ->
                                    P (body s' a' (S i + j')%nat)).
  { intros s' j' a' Hj' Hs'.
    specialize (Hkeep s' (S j') a' Hj' Hs').
    now rewrite Nat.add_succ_r in Hkeep. }
  destruct j as [| j]; simpl in *.
  - injection Hj as ->.
    apply forEach_from_inv; [| exact Hkeep'].
    specialize (Hset s). now rewrite Nat.add_0_r in Hset.
  - apply (IH (S i) _ j a Hj); [| exact Hkeep'].
    intros s'. specialize (Hset s').
    now rewrite Nat.add_succ_r in Hset.
Qed.

End Loops.

Lemma bucket_cons (li : nat) (n : Node.t) (nodes : list Node.t) :
  bucket li (n :: nodes) =
  if decide (Node.layer n = Z.of_nat li) then n :: bucket li nodes
  else bucket li nodes.
Proof.
  exact (filter_cons (fun n' => Node.layer n' = Z.of_nat li) n nodes).
Qed.

Lemma elem_of_bucket (li : nat) (n : Node.t) (nodes : list Node.t) :
  n ∈ bucket li nodes <-> Node.layer n = Z.of_nat li /\ n ∈ nodes.
Proof.
  exact (list_elem_of_filter (fun n' => Node.layer n' = Z.of_nat li) nodes n).
Qed.

Lemma forEachM_cons {A St : Type} (body : St -> A -> result St)
    (a : A) (arr : list A) (s : St) :
  forEachM body (a :: arr) s = body s a ≫= forEachM body arr.
Proof. reflexivity. Qed.

Lemma push_layer_Ok (acc ls : list (list Node.t)) (n : Node.t) :
  push_layer acc n = Ok ls <->
  exists b, (0 <= Node.layer n)%Z /\
            acc !! Z.to_nat (Node.layer n) = Some b /\
            ls = <[Z.to_nat (Node.layer n) := b ++ [n]]> acc.
Proof.
  unfold push_layer.
  destruct (decide (0 <= Node.layer n)%Z) as [Hge | Hlt].
  - destruct (acc !! Z.to_nat (Node.layer n)) as [b |].
    + split.
      * intros [= <-]. eauto.
      * intros (b' & _ & [= <-] & ->). reflexivity.
    + split; [discriminate |]. intros (b' & _ & [=] & _).
  - split; [discriminate |]. intros (b' & ? & _). contradiction.
Qed.

(** Where it does not throw, the grouping loop appends to each bucket the
    nodes of its layer, in order. *)
Lemma forEachM_push_layer (nodes : list Node.t) :
  forall acc : list (list Node.t),
    (forall n, n ∈ nodes -> (0 <= Node.layer n < Z.of_nat (length acc))%Z) ->
    forEachM push_layer nodes acc =
    Ok (imap (fun li b => b ++ bucket li nodes) acc).
Proof.
  induction nodes as [| n nodes IH]; intros acc Hvalid.
  - simpl. f_equal. apply list_eq. intros i. rewrite list_lookup_imap.
    destruct (acc !! i); simpl; [now rewrite app_nil_r | reflexivity].
  - assert (Hn : (0 <= Node.layer n < Z.of_nat (length acc))%Z)
      by (apply Hvalid; left).
    destruct (lookup_lt_is_Some_2 acc (Z.to_nat (Node.layer n)))
      as [b Hb]; [lia |].
    rewrite forEachM_cons.
    assert (push_layer acc n =
            Ok (<[Z.to_nat (Node.layer n) := b ++ [n]]> acc)) as ->.
    { apply push_layer_Ok. exists b. repeat split; [lia | exact Hb]. }
    simpl. rewrite IH.
    + f_equal. apply list_eq. intros i. rewrite !list_lookup_imap.
      rewrite bucket_cons.
      destruct (decide (Z.to_nat (Node.layer n) = i)) as [<- | Hne].
      * rewrite list_lookup_insert_eq by (eapply lookup_lt_Some; eauto).
        rewrite Hb. simpl.
        destruct (decide _) as [_ | ?]; [| lia].
        now rewrite <- app_assoc.
      * rewrite list_lookup_insert_ne by exact Hne.
        destruct (decide _) as [? | _]; [lia | reflexivity].
    + intros n' Hn'. rewrite length_insert. apply Hvalid. now right.
Qed.

(** The grouping loop only finishes on nodes whose layer is a bucket. *)
Lemma forEachM_push_layer_Ok (nodes : list Node.t) :
  forall acc ls : list (list Node.t),
    forEachM push_layer nodes acc = Ok ls ->
    forall n, n ∈ nodes -> (0 <= Node.layer n < Z.of_nat (length acc))%Z.
Proof.
  induction nodes as [| n nodes IH]; intros acc ls Hok n' Hn';
    [inversion Hn' |].
  rewrite forEachM_cons in Hok.
  destruct (push_layer acc n) as [ls' | e] eqn:Hpush; [| discriminate Hok].
  simpl in Hok.
  apply push_layer_Ok in Hpush as (b & Hge & Hb & ->).
  apply elem_of_cons in Hn' as [-> | Hn'].
  - apply lookup_lt_Some in Hb. lia.
  - specialize (IH _ _ Hok n' Hn'). now rewrite length_insert in IH.
Qed.

Lemma group_layers_valid (nodes : list Node.t) :
  valid_layers nodes ->
  group_layers nodes =
  Ok [bucket 0 nodes; bucket 1 nodes; bucket 2 nodes; bucket 3 nodes;
      bucket 4 nodes].
Proof.
  intros Hvalid. unfold group_layers.
  rewrite forEachM_push_layer; [reflexivity |].
  intros n Hn. specialize (Hvalid n Hn). simpl. lia.
Qed.

Lemma group_layers_Ok (nodes : list Node.t) (ls : list (list Node.t)) :
  group_layers nodes = Ok ls -> valid_layers nodes.
Proof.
  intros Hok n Hn.
  pose proof (forEachM_push_layer_Ok nodes _ _ Hok n Hn) as H.
  simpl in H. lia.
Qed.

Lemma lookup_buckets (nodes : list Node.t) (li : nat) (l : list Node.t) :
  [bucket 0 nodes; bucket 1 nodes; bucket 2 nodes; bucket 3 nodes;
   bucket 4 nodes] !! li = Some l ->
  l = bucket li nodes.
Proof.
  do 5 (destruct li as [| li]; [now intros [= <-] |]). intros [=].
Qed.

Lemma buckets_lookup (nodes : list Node.t) (li : nat) :
  (li < 5)%nat ->
  [bucket 0 nodes; bucket 1 nodes; bucket 2 nodes; bucket 3 nodes;
   bucket 4 nodes] !! li = Some (bucket li nodes).
Proof.
  intros Hli. do 5 (destruct li as [| li]; [reflexivity |]). lia.
Qed.

Lemma lookup_place_node (c : Canvas.t) (li : nat) (layer : list Node.t)
    (np : gmap Z Pos.t) (n : Node.t) (j : nat) (k : Z) :
  place_node c li layer np n j !! k =
  if decide (Node.id n = k) then Some (position_of c li layer n j)
  else np !! k.
Proof. unfold place_node. apply lookup_insert. Qed.

(** A key whose writes in a layer all carry the value it already has keeps
    that value. *)
Lemma place_layer_keep (c : Canvas.t) (li : nat) (layer : list Node.t)
    (np : gmap Z Pos.t) (k : Z) (v : Pos.t) :
  np !! k = Some v ->
  (forall j n, layer !! j = Some n -> Node.id n = k ->
               position_of c li layer n j = v) ->
  place_layer c np layer li !! k = Some v.
Proof.
  intros Hnp Hsame. unfold place_layer, forEach.
  apply (forEach_from_inv (fun s : gmap Z Pos.t => s !! k = Some v));
    [exact Hnp |].
  intros s j n Hj Hs. simpl. rewrite lookup_place_node.
  destruct (decide (Node.id n = k)) as [Hk | _]; [| exact Hs].
  f_equal. now apply Hsame.
Qed.

Lemma place_layer_set (c : Canvas.t) (li : nat) (layer : list Node.t)
    (np : gmap Z Pos.t) (j : nat) (n : Node.t) :
  layer !! j = Some n ->
  (forall j' n', layer !! j' = Some n' -> Node.id n' = Node.id n ->
                 position_of c li layer n' j' = position_of c li layer n j) ->
  place_layer c np layer li !! Node.id n = Some (position_of c li layer n j).
Proof.
  intros Hj Hsame. unfold place_layer, forEach.
  apply (forEach_from_establish
           (fun s : gmap Z Pos.t =>
              s !! Node.id n = Some (position_of c li layer n j))
           _ _ 0%nat np j n Hj).
  - intros s. simpl. rewrite lookup_place_node.
    destruct (decide _) as [_ | ?]; [reflexivity | contradiction].
  - intros s j' n' Hj' Hs. simpl. rewrite lookup_place_node.
    destruct (decide (Node.id n' = Node.id n)) as [Hk | _]; [| exact Hs].
    f_equal. now apply Hsame.
Qed.

Lemma positions_lookup (c : Canvas.t) (layers : list (list Node.t))
    (np : gmap Z Pos.t) (li : nat) (layer : list Node.t) (j : nat)
    (n : Node.t) :
  layers !! li = Some layer ->
  layer !! j = Some n ->
  (forall li' layer' j' n',
      layers !! li' = Some layer' -> layer' !! j' = Some n' ->
      Node.id n' = Node.id n ->
      position_of c li' layer' n' j' = position_of c li layer n j) ->
  forEach (place_layer c) layers np !! Node.id n =
  Some (position_of c li layer n j).
Proof.
  intros Hli Hj Hsame. unfold forEach.
  apply (forEach_from_establish
           (fun s : gmap Z Pos.t =>
              s !! Node.id n = Some (position_of c li layer n j))
           _ _ 0%nat np li layer Hli).
  - intros s. simpl. apply place_layer_set; [exact Hj |].
    intros j' n' Hj' Hid. now apply (Hsame li layer j' n').
  - intros s li' layer' Hli' Hs. simpl.
    apply place_layer_keep; [exact Hs |].
    intros j' n' Hj' Hid. now apply (Hsame li' layer' j' n').
Qed.

Lemma NoDup_fmap_inj_on {A B : Type} (f : A -> B) (l : list A) (x y : A) :
  NoDup (f <$> l) -> x ∈ l -> y ∈ l -> f x = f y -> x = y.
Proof.
  induction l as [| a l IH]; intros Hnd Hx Hy Hf; [inversion Hx |].
  rewrite fmap_cons in Hnd. apply NoDup_cons in Hnd as [Hna Hnd].
  apply elem_of_cons in Hx as [-> | Hx];
    apply elem_of_cons in Hy as [-> | Hy].
  - reflexivity.
  - exfalso. apply Hna. rewrite Hf. apply list_elem_of_fmap. eauto.
  - exfalso. apply Hna. rewrite <- Hf. apply list_elem_of_fmap. eauto.
  - now apply IH.
Qed.

(** With distinct ids, the position of a node is the one written for its
    place in its layer. *)
Lemma nodePositions_lookup (c : Canvas.t) (nodes : list Node.t)
    (li ni : nat) (node : Node.t) :
  NoDup (Node.id <$> nodes) ->
  valid_layers nodes ->
  bucket li nodes !! ni = Some node ->
  exists np,
    nodePositions c nodes = Ok np /\
    np !! Node.id node = Some (position_of c li (bucket li nodes) node ni).
Proof.
  intros Hnd Hvalid Hni.
  unfold nodePositions. rewrite (group_layers_valid _ Hvalid). simpl.
  eexists. split; [reflexivity |].
  assert (Hin : node ∈ bucket li nodes)
    by (apply list_elem_of_lookup; eauto).
  apply elem_of_bucket in Hin as [Hlayer Hnode].
  assert (Hli : (li < 5)%nat) by (specialize (Hvalid node Hnode); lia).
  apply positions_lookup; [now apply buckets_lookup | exact Hni |].
  intros li' layer' j' n' Hli' Hj' Hid.
  apply lookup_buckets in Hli' as ->.
  assert (Hin' : n' ∈ bucket li' nodes)
    by (apply list_elem_of_lookup; eauto).
  apply elem_of_bucket in Hin' as [Hlayer' Hnode'].
  assert (n' = node) as -> by (eapply NoDup_fmap_inj_on; eauto).
  assert (li' = li) as -> by lia.
  assert (j' = ni) as ->; [| reflexivity].
  eapply NoDup_lookup; [| exact Hj' | exact Hni].
  unfold bucket. apply NoDup_filter. eapply NoDup_fmap_1. exact Hnd.
Qed.

(** The keys of [nodePositions] are the ids of the dataset. *)
Lemma nodePositions_dom (c : Canvas.t) (nodes : list Node.t)
    (np : gmap Z Pos.t) :
  nodePositions c nodes = Ok np ->
  forall k, is_Some (np !! k) <-> k ∈ (Node.id <$> nodes).
Proof.
  unfold nodePositions. intros Hok k.
  destruct (group_layers nodes) as [layers | e] eqn:Hg; [| discriminate Hok].
  pose proof (group_layers_Ok _ _ Hg) as Hvalid.
  rewrite (group_layers_valid _ Hvalid) in Hg. injection Hg as <-.
  simpl in Hok. injection Hok as <-. split.
  - unfold forEach.
    apply (forEach_from_inv
             (fun s : gmap Z Pos.t =>
                is_Some (s !! k) -> k ∈ (Node.id <$> nodes))).
    + rewrite lookup_empty. intros [? [=]].
    + intros s li layer Hli Hs. simpl. unfold place_layer, forEach.
      apply lookup_buckets in Hli as ->.
      apply (forEach_from_inv
               (fun s : gmap Z Pos.t =>
                  is_Some (s !! k) -> k ∈ (Node.id <$> nodes)));
        [exact Hs |].
      intros s' j n Hj Hs'. simpl. rewrite lookup_place_node.
      destruct (decide (Node.id n = k)) as [<- | _]; [intros _ | exact Hs'].
      assert (Hin : n ∈ bucket li nodes)
        by (apply list_elem_of_lookup; eauto).
      apply elem_of_bucket in Hin as [_ Hin].
      apply list_elem_of_fmap. eauto.
  - intros Hk. apply list_elem_of_fmap in Hk as (n & -> & Hn).
    pose proof (Hvalid n Hn) as Hl.
    assert (Hin : n ∈ bucket (Z.to_nat (Node.layer n)) nodes)
      by (apply elem_of_bucket; split; [lia | exact Hn]).
    apply list_elem_of_lookup in Hin as [j Hj].
    assert (Hli : (Z.to_nat (Node.layer n) < 5)%nat) by lia.
    unfold forEach.
    apply (forEach_from_establish
             (fun s : gmap Z Pos.t => is_Some (s !! Node.id n))
             _ _ 0%nat ∅ (Z.to_nat (Node.layer n)) _
             (buckets_lookup nodes _ Hli)).
    + intros s. simpl. unfold place_layer, forEach.
      apply (forEach_from_establish
               (fun s : gmap Z Pos.t => is_Some (s !! Node.id n))
               _ _ 0%nat s j n Hj).
      * intros s'. simpl. rewrite lookup_place_node.
        destruct (decide _) as [_ | ?]; [eauto | contradiction].
      * intros s' j' n' _ Hs'. simpl. rewrite lookup_place_node.
        destruct (decide _); [eauto | exact Hs'].
    + intros s li layer _ Hs. simpl. unfold place_layer, forEach.
      apply (forEach_from_inv
               (fun s : gmap Z Pos.t => is_Some (s !! Node.id n)));
        [exact Hs |].
      intros s' j' n' _ Hs'. simpl. rewrite lookup_place_node.
      destruct (decide _); [eauto | exact Hs'].
Qed.

Lemma nodes0_NoDup : NoDup (Node.id <$> nodes0).
Proof. apply (bool_decide_unpack _). vm_compute. reflexivity. Qed.

Lemma nodes0_valid : valid_layers nodes0.
Proof.
  unfold valid_layers. apply Forall_forall.
  unfold nodes0. repeat constructor; simpl; lia.
Qed.

Lemma startY_eq (c : Canvas.t) (layer : list Node.t) :
  startY c layer ==
  Margin.top (Canvas.margin c)
  + (layerHeight c - num (length layer) * (nodeHeight + 15)) / 2.
Proof. unfold startY, totalHeight. reflexivity. Qed.

Lemma startY_slots_centred (c : Canvas.t) (layer : list Node.t) :
  startY c layer - Margin.top (Canvas.margin c) ==
  (Canvas.height c - Margin.bottom (Canvas.margin c))
  - (startY c layer + num (length layer) * (nodeHeight + 15)).
Proof. unfold startY, totalHeight, layerHeight. field. Qed.

(** C3: the stack is not centred.  The first layer of the dataset of the
    component has three nodes; from the top of its first box to the bottom
    of its last one the stack is 165 high, which is the
    [count * (nodeHeight + gap) - gap] of the claim, but the code takes
    [totalHeight = count * (nodeHeight + 15) = 180] in its centring formula.
    The stack starts at 310 and not at the offset 317.5 of the claim, and
    the free height above it (230) is smaller than the one below its last
    box (245). *)
Theorem startY_differs_from_spec_startY :
  exists (np : gmap Z Pos.t) (first last : Pos.t),
    nodePositions canvas0 nodes0 = Ok np /\
    length (bucket 0 nodes0) = 3%nat /\
    Node.id <$> bucket 0 nodes0 = [0; 1; 2]%Z /\
    np !! 0%Z = Some first /\
    np !! 2%Z = Some last /\
    Pos.y first == startY canvas0 (bucket 0 nodes0) /\
    startY canvas0 (bucket 0 nodes0) ==
      Margin.top (Canvas.margin canvas0)
      + (layerHeight canvas0 - totalHeight (bucket 0 nodes0)) / 2 /\
    totalHeight (bucket 0 nodes0) == 180 /\
    spec_totalStackHeight 3 == 165 /\
    Pos.y last + Pos.height last - Pos.y first == 165 /\
    Pos.y first == 310 /\
    spec_startY canvas0 3 == 635 # 2 /\
    Pos.y first < spec_startY canvas0 3 /\
    Pos.y first - Margin.top (Canvas.margin canvas0) == 230 /\
    Canvas.height canvas0 - Margin.bottom (Canvas.margin canvas0)
    - (Pos.y last + Pos.height last) == 245.
Proof.
  do 3 eexists.
  split; [vm_compute; reflexivity |].
  split; [reflexivity |].
  split; [reflexivity |].
  split; [vm_compute; reflexivity |].
  split; [vm_compute; reflexivity |].
  repeat split; vm_compute; congruence.
Qed.

(** With distinct ids and layers among the five, the node at place [ni] of
    the layer [li] is put at [startY + ni * (nodeHeight + 15)], where
    [startY = margin.top + (layerHeight - totalHeight) / 2] and
    [totalHeight = count * (nodeHeight + 15)] counts a gap after every node,
    the last one too: it is the [count] slots of height [nodeHeight + 15]
    that are centred in the usable height. *)
Lemma layout_start_offset (c : Canvas.t) (nodes : list Node.t)
    (li ni : nat) (node : Node.t) :
  NoDup (Node.id <$> nodes) ->
  valid_layers nodes ->
  bucket li nodes !! ni = Some node ->
  exists (np : gmap Z Pos.t) (pos : Pos.t),
    nodePositions c nodes = Ok np /\
    np !! Node.id node = Some pos /\
    Pos.y pos = startY c (bucket li nodes) + num ni * (nodeHeight + 15) /\
    startY c (bucket li nodes) ==
      Margin.top (Canvas.margin c)
      + (layerHeight c
         - num (length (bucket li nodes)) * (nodeHeight + 15)) / 2 /\
    layerHeight c ==
      Canvas.height c - Margin.top (Canvas.margin c)
      - Margin.bottom (Canvas.margin c) /\
    startY c (bucket li nodes) - Margin.top (Canvas.margin c) ==
      (Canvas.height c - Margin.bottom (Canvas.margin c))
      - (startY c (bucket li nodes)
         + num (length (bucket li nodes)) * (nodeHeight + 15)).
Proof.
  intros Hnd Hvalid Hni.
  destruct (nodePositions_lookup c nodes li ni node Hnd Hvalid Hni)
    as (np & Hnp & Hlk).
  exists np, (position_of c li (bucket li nodes) node ni).
  split; [exact Hnp |]. split; [exact Hlk |]. split; [reflexivity |].
  split; [apply startY_eq |]. split; [reflexivity |].
  apply startY_slots_centred.
Qed.

(** ** The drawing *)

Lemma at_key_Ok {A : Type} (obj : gmap Z A) (key : Z) (a : A) :
  at_key obj key = Ok a <-> obj !! key = Some a.
Proof.
  unfold at_key. destruct (obj !! key); split; congruence.
Qed.

Lemma at_key_Throw {A : Type} (obj : gmap Z A) (key : Z) :
  obj !! key = None -> at_key obj key = Throw TypeError.
Proof. unfold at_key. now intros ->. Qed.

Lemma bind_Ok {A B : Type} (r : result A) (k : A -> result B) (b : B) :
  r ≫= k = Ok b <-> exists a, r = Ok a /\ k a = Ok b.
Proof.
  destruct r as [a | e]; simpl.
  - split; [eauto | now intros (a' & [= <-] & H)].
  - split; [discriminate | now intros (a' & [=] & _)].
Qed.

(** The node loop appends one group per node, at the position of its id. *)
Lemma forEachM_drawNode (np : gmap Z Pos.t) (nodes : list Node.t) :
  forall acc gs : list NodeG.t,
    forEachM (drawNode np) nodes acc = Ok gs ->
    exists gs',
      gs = acc ++ gs' /\
      Forall2 (fun n g => exists pos, np !! Node.id n = Some pos /\
                                      g = node_group pos n) nodes gs'.
Proof.
  induction nodes as [| n nodes IH]; intros acc gs Hok.
  - injection Hok as <-. exists []. split; [now rewrite app_nil_r | constructor].
  - rewrite forEachM_cons in Hok.
    apply bind_Ok in Hok as (acc' & Hn & Hok).
    unfold drawNode in Hn.
    apply bind_Ok in Hn as (pos & Hpos & [= <-]).
    apply at_key_Ok in Hpos.
    destruct (IH _ _ Hok) as (gs' & -> & Hall).
    exists (node_group pos n :: gs'). split; [now rewrite <- app_assoc |].
    constructor; eauto.
Qed.

Lemma forEachM_drawNode_Ok (np : gmap Z Pos.t) (nodes : list Node.t) :
  (forall n, n ∈ nodes -> is_Some (np !! Node.id n)) ->
  forall acc, exists gs, forEachM (drawNode np) nodes acc = Ok gs.
Proof.
  induction nodes as [| n nodes IH]; intros Hall acc; [now exists acc |].
  rewrite forEachM_cons.
  destruct (Hall n) as [pos Hpos]; [left |].
  apply at_key_Ok in Hpos.
  assert (drawNode np acc n = Ok (acc ++ [node_group pos n])) as ->
    by (unfold drawNode; now rewrite Hpos).
  simpl. apply IH. intros n' Hn'. apply Hall. now right.
Qed.

(** What a finished run of the effect has drawn. *)
Lemma draw_Ok (c : Canvas.t) (nodes : list Node.t) (links : list Link.t)
    (previous s : Svg.t) :
  draw c nodes links previous = Ok s ->
  exists np,
    nodePositions c nodes = Ok np /\
    forEachM (drawLink nodes links np) links [] = Ok (Svg.linkGroup s) /\
    Forall2 (fun n g => exists pos, np !! Node.id n = Some pos /\
                                    g = node_group pos n)
      nodes (Svg.nodeGroup s) /\
    Svg.legendGroup s = drawLegendItem <$> legendData.
Proof.
  unfold draw. intros Hok.
  apply bind_Ok in Hok as (np & Hnp & Hok).
  apply bind_Ok in Hok as (lg & Hlg & Hok).
  apply bind_Ok in Hok as (ng & Hng & [= <-]).
  exists np. simpl. split; [exact Hnp |]. split; [exact Hlg |].
  split; [| reflexivity].
  apply forEachM_drawNode in Hng as (gs' & -> & Hall). exact Hall.
Qed.

Lemma draw_previous (c : Canvas.t) (nodes : list Node.t) (links : list Link.t)
    (previous1 previous2 : Svg.t) :
  draw c nodes links previous1 = draw c nodes links previous2.
Proof. reflexivity. Qed.

Lemma Forall2_node_group_nodes (np : gmap Z Pos.t) (nodes : list Node.t)
    (gs : list NodeG.t) :
  Forall2 (fun n g => exists pos, np !! Node.id n = Some pos /\
                                  g = node_group pos n) nodes gs ->
  NodeG.node <$> gs = nodes.
Proof.
  induction 1 as [| n g nodes gs (pos & _ & ->) _ IH]; [reflexivity |].
  rewrite fmap_cons, IH. reflexivity.
Qed.

Lemma Forall2_node_group_positioned (np : gmap Z Pos.t) (nodes : list Node.t)
    (gs : list NodeG.t) :
  Forall2 (fun n g => exists pos, np !! Node.id n = Some pos /\
                                  g = node_group pos n) nodes gs ->
  positioned np nodes gs.
Proof.
  unfold positioned. intros H. eapply Forall2_impl; [exact H |].
  intros n g (pos & Hpos & ->). split; [reflexivity |]. eauto.
Qed.

Lemma positioned_fmap (np : gmap Z Pos.t) (nodes : list Node.t)
    (gs : list NodeG.t) (o : Q) :
  positioned np nodes gs ->
  positioned np nodes (node_rect_attr_opacity o <$> gs).
Proof.
  unfold positioned. intros H. apply Forall2_fmap_r.
  eapply Forall2_impl; [exact H |]. intros n g Hg. exact Hg.
Qed.

Lemma positioned_alter (np : gmap Z Pos.t) (nodes : list Node.t)
    (gs : list NodeG.t) (o : Q) (i : nat) :
  positioned np nodes gs ->
  positioned np nodes (alter (node_rect_attr_opacity o) i gs).
Proof.
  unfold positioned. intros H. apply Forall2_alter_r; [exact H |].
  intros n g _ _ Hg. exact Hg.
Qed.

Lemma positioned_nodes (np : gmap Z Pos.t) (nodes : list Node.t)
    (gs : list NodeG.t) :
  positioned np nodes gs -> NodeG.node <$> gs = nodes.
Proof.
  induction 1 as [| n g nodes gs [Hn _] _ IH]; [reflexivity |].
  rewrite fmap_cons, IH, Hn. reflexivity.
Qed.

Lemma draw_positioned (c : Canvas.t) (nodes : list Node.t)
    (links : list Link.t) (previous s : Svg.t) :
  draw c nodes links previous = Ok s ->
  exists np,
    nodePositions c nodes = Ok np /\ positioned np nodes (Svg.nodeGroup s).
Proof.
  intros Hok. apply draw_Ok in Hok as (np & Hnp & _ & Hall & _).
  exists np. split; [exact Hnp |].
  now apply Forall2_node_group_positioned.
Qed.

(** Case analysis of one [step]: the event, then whether its element is in
    the drawing. *)
Ltac step_cases st ev Hstep :=
  destruct ev as [?i | ?i | ?i | ?j | ?j]; simpl in Hstep;
  [ destruct (Svg.nodeGroup (Component.svg st) !! i) as [?g |]
  | destruct (Svg.nodeGroup (Component.svg st) !! i) as [?g |]
  | destruct (Svg.nodeGroup (Component.svg st) !! i) as [?g |]
  | destruct (Svg.linkGroup (Component.svg st) !! j) as [?p |]
  | destruct (Svg.linkGroup (Component.svg st) !! j) as [?p |] ].

(** Every event leaves the node groups where the layout puts them. *)
Lemma step_positioned (c : Canvas.t) (nodes : list Node.t)
    (links : list Link.t) (np : gmap Z Pos.t) (st st' : Component.t)
    (ev : Event) :
  nodePositions c nodes = Ok np ->
  positioned np nodes (Svg.nodeGroup (Component.svg st)) ->
  step c nodes links st ev = Ok st' ->
  positioned np nodes (Svg.nodeGroup (Component.svg st')).
Proof.
  intros Hnp Hpos Hstep.
  step_cases st ev Hstep;
    try (injection Hstep as <-; first [exact Hpos | simpl]).
  - now apply positioned_alter, positioned_fmap.
  - now apply positioned_fmap.
  - unfold onNodeClick in Hstep.
    apply bind_Ok in Hstep as (s & Hs & [= <-]). simpl.
    apply draw_positioned in Hs as (np' & Hnp' & Hs).
    rewrite Hnp in Hnp'. injection Hnp' as <-. exact Hs.
Qed.

Lemma mount_Ok (c : Canvas.t) (nodes : list Node.t) (links : list Link.t)
    (st : Component.t) :
  mount c nodes links = Ok st <->
  exists s, draw c nodes links (Svg.mk [] [] []) = Ok s /\
            st = Component.mk None None s.
Proof.
  unfold mount. rewrite bind_Ok. split.
  - intros (s & Hs & [= <-]). eauto.
  - intros (s & Hs & ->). eauto.
Qed.

Lemma reachable_positioned (c : Canvas.t) (nodes : list Node.t)
    (links : list Link.t) (st : Component.t) :
  reachable c nodes links st ->
  exists np,
    nodePositions c nodes = Ok np /\
    positioned np nodes (Svg.nodeGroup (Component.svg st)).
Proof.
  induction 1 as [st Hm | st st' ev _ (np & Hnp & Hpos) Hstep].
  - apply mount_Ok in Hm as (s & Hs & ->). simpl.
    now apply draw_positioned in Hs.
  - exists np. split; [exact Hnp |]. eapply step_positioned; eauto.
Qed.

Lemma reachable_shows (c : Canvas.t) (nodes : list Node.t)
    (links : list Link.t) (st : Component.t) :
  reachable c nodes links st -> shows c nodes links st.
Proof.
  intros Hr. split.
  - induction Hr as [st Hm | st st' ev _ IH _]; [| exact IH].
    apply mount_Ok in Hm as (s & Hs & _). eauto.
  - apply reachable_positioned in Hr as (np & _ & Hpos).
    now apply positioned_nodes in Hpos.
Qed.

(** C6: the layout depends on the dataset and the canvas only.  Two runs of
    the effect draw the same thing whatever the states they start from; two
    layouts agree at every id; a dataset with valid layers always gets a
    layout, with a position for exactly its ids; and in every state the
    component goes through the node groups are where the layout puts them. *)
Theorem layout_deterministic (c : Canvas.t) (nodes : list Node.t)
    (links : list Link.t) (st1 st2 : Component.t) :
  draw c nodes links (Component.svg st1) =
  draw c nodes links (Component.svg st2) /\
  (forall np1 np2 : gmap Z Pos.t,
      nodePositions c nodes = Ok np1 -> nodePositions c nodes = Ok np2 ->
      forall k : Z, np1 !! k = np2 !! k) /\
  (valid_layers nodes ->
   exists np : gmap Z Pos.t,
     nodePositions c nodes = Ok np /\
     forall k : Z, is_Some (np !! k) <-> k ∈ (Node.id <$> nodes)) /\
  (reachable c nodes links st1 ->
   exists np : gmap Z Pos.t,
     nodePositions c nodes = Ok np /\
     positioned np nodes (Svg.nodeGroup (Component.svg st1))).
Proof.
  split; [apply draw_previous |].
  split; [intros np1 np2 H1 H2 k; congruence |].
  split; [| apply reachable_positioned].
  intros Hvalid.
  destruct (nodePositions c nodes) as [np | e] eqn:Hnp.
  - exists np. split; [reflexivity |]. now apply (nodePositions_dom c).
  - unfold nodePositions in Hnp.
    rewrite (group_layers_valid _ Hvalid) in Hnp. discriminate Hnp.
Qed.

(** ** Links *)

Lemma drawLink_missing (nodes : list Node.t) (links : list Link.t)
    (np : gmap Z Pos.t) (acc : list PathEl.t) (link : Link.t) :
  np !! Link.source link = None \/ np !! Link.target link = None ->
  drawLink nodes links np acc link = Throw TypeError.
Proof.
  intros Hmiss. unfold drawLink.
  destruct (np !! Link.source link) as [src |] eqn:Hs.
  - destruct Hmiss as [[=] | Ht].
    rewrite (proj2 (at_key_Ok np _ src) Hs). simpl.
    now rewrite (at_key_Throw np _ Ht).
  - now rewrite (at_key_Throw np _ Hs).
Qed.

Lemma forEachM_drawLink_missing (nodes : list Node.t) (all : list Link.t)
    (np : gmap Z Pos.t) (links : list Link.t) :
  forall (acc : list PathEl.t) (link : Link.t),
    link ∈ links ->
    np !! Link.source link = None \/ np !! Link.target link = None ->
    forEachM (drawLink nodes all np) links acc = Throw TypeError.
Proof.
  induction links as [| l links IH]; intros acc link Hin Hmiss;
    [inversion Hin |].
  rewrite forEachM_cons.
  apply elem_of_cons in Hin as [<- | Hin].
  - now rewrite drawLink_missing.
  - destruct (drawLink nodes all np acc l) as [acc' | []]; simpl;
      [eauto | reflexivity].
Qed.

(** C9: when a link of the dataset has a source or a target that is the id
    of no node, the loop over the links throws at that link, and so does the
    whole effect at the first render: no drawing is made, and the link is
    neither left out nor given a default position. *)
Theorem missing_endpoint_throws (c : Canvas.t) (nodes : list Node.t)
    (links : list Link.t) (link : Link.t) :
  link ∈ links ->
  Link.source link ∉ (Node.id <$> nodes) \/
  Link.target link ∉ (Node.id <$> nodes) ->
  (forall previous : Svg.t, draw c nodes links previous = Throw TypeError) /\
  mount c nodes links = Throw TypeError /\
  (forall (np : gmap Z Pos.t) (acc : list PathEl.t),
      nodePositions c nodes = Ok np ->
      drawLink nodes links np acc link = Throw TypeError /\
      forEachM (drawLink nodes links np) links acc = Throw TypeError).
Proof.
  intros Hin Hmiss.
  assert (Hnp : forall np, nodePositions c nodes = Ok np ->
                           np !! Link.source link = None \/
                           np !! Link.target link = None).
  { intros np Hnp. pose proof (nodePositions_dom c nodes np Hnp) as Hdom.
    destruct Hmiss as [Hs | Ht]; [left | right];
      apply eq_None_not_Some; intros H; apply Hdom in H; contradiction. }
  assert (Hdraw : forall previous, draw c nodes links previous = Throw TypeError).
  { intros previous. unfold draw.
    destruct (nodePositions c nodes) as [np | []]; [| reflexivity].
    simpl.
    rewrite (forEachM_drawLink_missing _ _ _ _ _ link Hin (Hnp np eq_refl)).
    reflexivity. }
  split; [exact Hdraw |].
  split; [unfold mount; now rewrite Hdraw |].
  intros np acc E. split.
  - apply drawLink_missing. now apply Hnp.
  - eapply forEachM_drawLink_missing; eauto.
Qed.

Lemma missing_endpoint_throws_witness :
  mount canvas0 nodes_scenario [Link.mk 0 7 100] = Throw TypeError.
Proof.
  apply (missing_endpoint_throws canvas0 nodes_scenario [Link.mk 0 7 100]
           (Link.mk 0 7 100)).
  - left.
  - right. simpl. intros H. repeat (apply elem_of_cons in H as [[=] | H]).
    inversion H.
Defined.

Lemma at_index_Ok {A : Type} (arr : list A) (i : Z) (a : A) :
  at_index arr i = Ok a <-> (0 <= i)%Z /\ arr !! Z.to_nat i = Some a.
Proof.
  unfold at_index. destruct (decide (0 <= i)%Z) as [Hi | Hi].
  - destruct (arr !! Z.to_nat i); split;
      [intros [= <-]; auto | intros [_ [= <-]]; reflexivity
      | discriminate | intros [_ [=]]].
  - split; [discriminate | intros [? _]; contradiction].
Qed.

(** What the body of the link loop appends when it does not throw. *)
Lemma drawLink_Ok (nodes : list Node.t) (links : list Link.t)
    (np : gmap Z Pos.t) (acc acc' : list PathEl.t) (link : Link.t) :
  drawLink nodes links np acc link = Ok acc' ->
  exists (src tgt : Pos.t) (sn tn : Node.t),
    np !! Link.source link = Some src /\
    np !! Link.target link = Some tgt /\
    at_index nodes (Link.source link) = Ok sn /\
    at_index nodes (Link.target link) = Ok tn /\
    acc' = acc ++ [PathEl.mk (ribbon src tgt <$> linkHeight links link)
                     (getRiskColor64
                        (avgScore (Node.riskScore sn) (Node.riskScore tn)))
                     0.25].
Proof.
  unfold drawLink. intros Hok.
  apply bind_Ok in Hok as (src & Hs & Hok).
  apply bind_Ok in Hok as (tgt & Ht & Hok).
  apply bind_Ok in Hok as (sn & Hsn & Hok).
  apply bind_Ok in Hok as (tn & Htn & [= <-]).
  apply at_key_Ok in Hs, Ht.
  exists src, tgt, sn, tn. auto.
Qed.

Lemma ids_are_indices_NoDup (nodes : list Node.t) :
  ids_are_indices nodes -> NoDup (Node.id <$> nodes).
Proof.
  intros Hidx. apply NoDup_alt. intros i j k Hi Hj.
  rewrite list_lookup_fmap in Hi, Hj.
  apply fmap_Some in Hi as (ni & Hi & ->).
  apply fmap_Some in Hj as (nj & Hj & Hk).
  rewrite (Hidx i ni Hi), (Hidx j nj Hj) in Hk. lia.
Qed.

(** With distinct ids, the score kept in a position is that of its node. *)
Lemma nodePositions_riskScore (c : Canvas.t) (nodes : list Node.t)
    (np : gmap Z Pos.t) (n : Node.t) (pos : Pos.t) :
  NoDup (Node.id <$> nodes) ->
  nodePositions c nodes = Ok np ->
  n ∈ nodes ->
  np !! Node.id n = Some pos ->
  Pos.riskScore pos = Node.riskScore n.
Proof.
  intros Hnd Hnp Hn Hpos.
  assert (Hvalid : valid_layers nodes).
  { unfold nodePositions in Hnp.
    destruct (group_layers nodes) eqn:Hg; [| discriminate Hnp].
    eapply group_layers_Ok; eauto. }
  assert (Hin : n ∈ bucket (Z.to_nat (Node.layer n)) nodes).
  { apply elem_of_bucket. split; [| exact Hn].
    specialize (Hvalid n Hn). lia. }
  apply list_elem_of_lookup in Hin as [ni Hni].
  destruct (nodePositions_lookup c nodes _ ni n Hnd Hvalid Hni)
    as (np' & Hnp' & Hlk).
  rewrite Hnp in Hnp'. injection Hnp' as <-.
  rewrite Hpos in Hlk. injection Hlk as ->. reflexivity.
Qed.

(** On a dataset whose ids are the array indices, the fill of a ribbon is
    the colour of the mean score of the two nodes its link names. *)
Lemma drawLink_fill_by_id (c : Canvas.t) (nodes : list Node.t)
    (links : list Link.t) (np : gmap Z Pos.t) (acc acc' : list PathEl.t)
    (link : Link.t) :
  ids_are_indices nodes ->
  nodePositions c nodes = Ok np ->
  drawLink nodes links np acc link = Ok acc' ->
  exists (src tgt : Pos.t) (p : PathEl.t),
    np !! Link.source link = Some src /\
    np !! Link.target link = Some tgt /\
    acc' = acc ++ [p] /\
    PathEl.fill p =
      getRiskColor64 (avgScore (Pos.riskScore src) (Pos.riskScore tgt)).
Proof.
  intros Hidx Hnp Hok.
  apply drawLink_Ok in Hok as (src & tgt & sn & tn & Hs & Ht & Hsn & Htn & ->).
  apply at_index_Ok in Hsn as [Hs0 Hsn], Htn as [Ht0 Htn].
  pose proof (ids_are_indices_NoDup _ Hidx) as Hnd.
  pose proof (Hidx _ _ Hsn) as Hids. pose proof (Hidx _ _ Htn) as Hidt.
  rewrite Z2Nat.id in Hids, Hidt by assumption.
  assert (Hrs : Pos.riskScore src = Node.riskScore sn).
  { apply (nodePositions_riskScore c nodes np sn src Hnd Hnp).
    - apply list_elem_of_lookup. eauto.
    - now rewrite Hids. }
  assert (Hrt : Pos.riskScore tgt = Node.riskScore tn).
  { apply (nodePositions_riskScore c nodes np tn tgt Hnd Hnp).
    - apply list_elem_of_lookup. eauto.
    - now rewrite Hidt. }
  eexists src, tgt, _.
  split; [exact Hs |]. split; [exact Ht |]. split; [reflexivity |].
  simpl. now rewrite Hrs, Hrt.
Qed.

(** The link loop appends one path per link, in order. *)
Lemma forEachM_drawLink (nodes : list Node.t) (all : list Link.t)
    (np : gmap Z Pos.t) (links : list Link.t) :
  forall acc ps : list PathEl.t,
    forEachM (drawLink nodes all np) links acc = Ok ps ->
    exists ps',
      ps = acc ++ ps' /\
      Forall2 (fun link p => drawLink nodes all np [] link = Ok [p]) links ps'.
Proof.
  induction links as [| l links IH]; intros acc ps Hok.
  - injection Hok as <-. exists []. split; [now rewrite app_nil_r | constructor].
  - rewrite forEachM_cons in Hok.
    apply bind_Ok in Hok as (acc' & Hl & Hok).
    apply drawLink_Ok in Hl as (src & tgt & sn & tn & Hs & Ht & Hsn & Htn & ->).
    destruct (IH _ _ Hok) as (ps' & -> & Hall).
    eexists (_ :: ps'). split; [now rewrite <- app_assoc |].
    constructor; [| exact Hall].
    unfold drawLink.
    rewrite (proj2 (at_key_Ok _ _ _) Hs), (proj2 (at_key_Ok _ _ _) Ht).
    simpl. rewrite Hsn, Htn. reflexivity.
Qed.



(** C2: on the dataset of the component, whose largest link value is 600,
    [linkHeight] is the thickness of the claim: 25 for the link of value
    600, and 2 for the link of value 10, whose scaled value is below 2.
    The outline that is drawn from it is only half as high: its second
    curve runs [linkHeight / 2] above the first one, so the ribbon of the
    largest value is 12.5 thick, not 25, and the ribbon of the small value
    is 1 thick, below the least thickness 2. *)
Theorem ribbon_drawn_at_half_linkHeight :
  exists (s : Svg.t) (top small : PathEl.t)
         (x0 y0 c1 c2 c3 c4 x1 y1 y1' c5 c6 c7 c8 y0' : Q)
         (u0 v0 d1 d2 d3 d4 u1 v1 v1' d5 d6 d7 d8 v0' : Q),
    draw canvas0 nodes0 links0 (Svg.mk [] [] []) = Ok s /\
    maxValue links0 = Finite 600 /\
    links0 !! 8%nat = Some (Link.mk 2 5 600) /\
    linkHeight links0 (Link.mk 2 5 600) = Some 25 /\
    Svg.linkGroup s !! 8%nat = Some top /\
    PathEl.d top =
      Some [ moveTo x0 y0; bezierCurveTo c1 c2 c3 c4 x1 y1;
             lineTo x1 y1'; bezierCurveTo c5 c6 c7 c8 x0 y0';
             closePath ] /\
    y0 - y0' == 25 # 2 /\ y1 - y1' == 25 # 2 /\
    links0 !! 0%nat = Some (Link.mk 0 3 10) /\
    linkHeight links0 (Link.mk 0 3 10) = Some 2 /\
    Svg.linkGroup s !! 0%nat = Some small /\
    PathEl.d small =
      Some [ moveTo u0 v0; bezierCurveTo d1 d2 d3 d4 u1 v1;
             lineTo u1 v1'; bezierCurveTo d5 d6 d7 d8 u0 v0';
             closePath ] /\
    v0 - v0' == 1 /\ v1 - v1' == 1.
Proof.
  do 31 eexists.
  split; [vm_compute; reflexivity |].
  split; [vm_compute; reflexivity |].
  split; [reflexivity |].
  split; [vm_compute; reflexivity |].
  split; [vm_compute; reflexivity |].
  split; [vm_compute; reflexivity |].
  split; [vm_compute; reflexivity |].
  split; [vm_compute; reflexivity |].
  split; [reflexivity |].
  split; [vm_compute; reflexivity |].
  split; [vm_compute; reflexivity |].
  split; [vm_compute; reflexivity |].
  split; vm_compute; reflexivity.
Qed.


(** ** Interaction *)

Lemma shows_lookup (c : Canvas.t) (nodes : list Node.t) (links : list Link.t)
    (st : Component.t) (i : nat) (g : NodeG.t) :
  shows c nodes links st ->
  Svg.nodeGroup (Component.svg st) !! i = Some g ->
  nodes !! i = Some (NodeG.node g).
Proof.
  intros [_ <-] Hi. rewrite list_lookup_fmap, Hi. reflexivity.
Qed.

(** A click on a node that is shown toggles the selection and redraws. *)
Lemma step_NodeClick (c : Canvas.t) (nodes : list Node.t)
    (links : list Link.t) (st : Component.t) (i : nat) (g : NodeG.t) :
  shows c nodes links st ->
  Svg.nodeGroup (Component.svg st) !! i = Some g ->
  exists (s : Svg.t) (g' : NodeG.t),
    step c nodes links st (NodeClick i) =
      Ok (Component.mk (Component.hoveredNode st)
            (if decide (Component.selectedNode st = Some (Node.id (NodeG.node g)))
             then None else Some (Node.id (NodeG.node g)))
            s) /\
    Svg.nodeGroup s !! i = Some g' /\
    NodeG.node g' = NodeG.node g /\
    shows c nodes links (Component.mk (Component.hoveredNode st)
            (if decide (Component.selectedNode st = Some (Node.id (NodeG.node g)))
             then None else Some (Node.id (NodeG.node g)))
            s).
Proof.
  intros Hshows Hi.
  pose proof (shows_lookup _ _ _ _ _ _ Hshows Hi) as Hn.
  destruct Hshows as [[s Hs] Hnodes].
  pose proof (draw_positioned _ _ _ _ _ Hs) as (np & _ & Hpos).
  apply positioned_nodes in Hpos.
  assert (Hg' : exists g', Svg.nodeGroup s !! i = Some g' /\
                           NodeG.node g' = NodeG.node g).
  { rewrite <- Hpos, list_lookup_fmap in Hn.
    apply fmap_Some in Hn as (g' & Hg' & Heq). eauto. }
  destruct Hg' as (g' & Hg' & Heq).
  exists s, g'. split; [| split; [exact Hg' | split; [exact Heq |]]].
  - simpl. rewrite Hi. unfold onNodeClick.
    rewrite (draw_previous c nodes links _ (Svg.mk [] [] [])), Hs.
    reflexivity.
  - split; [eauto | exact Hpos].
Qed.

Lemma run_two (c : Canvas.t) (nodes : list Node.t) (links : list Link.t)
    (st st1 st2 : Component.t) (e1 e2 : Event) :
  step c nodes links st e1 = Ok st1 ->
  step c nodes links st1 e2 = Ok st2 ->
  run c nodes links st [e1; e2] = Ok st2.
Proof.
  intros H1 H2. unfold run. rewrite forEachM_cons, H1.
  unfold mbind, result_bind. rewrite forEachM_cons, H2. reflexivity.
Qed.

(** C5, as stated, fails: in the state reached from the first render by one
    click on the node with id 3, that node is selected, and two more clicks
    on it leave it selected, not the selection empty. *)
Lemma two_clicks_on_selected_node_keep_it :
  exists st0 st st' : Component.t,
    mount canvas0 nodes0 links0 = Ok st0 /\
    step canvas0 nodes0 links0 st0 (NodeClick 3) = Ok st /\
    Component.selectedNode st = Some 3%Z /\
    run canvas0 nodes0 links0 st [NodeClick 3; NodeClick 3] = Ok st' /\
    Component.selectedNode st' = Some 3%Z.
Proof.
  do 3 eexists.
  split; [vm_compute; reflexivity |].
  split; [vm_compute; reflexivity |].
  split; [reflexivity |].
  split; [vm_compute; reflexivity |].
  reflexivity.
Qed.

(** C5, amended: a click on the node with id [X] clears the selection when
    [X] is the selected id and selects [X] otherwise; a second click on the
    same node undoes this, so after the two clicks the selection is empty
    when [X] was not selected at the start, and is [X] when it was. *)
Theorem click_toggles_selection (c : Canvas.t) (nodes : list Node.t)
    (links : list Link.t) (st : Component.t) (i : nat) (g : NodeG.t) :
  shows c nodes links st ->
  Svg.nodeGroup (Component.svg st) !! i = Some g ->
  exists st1 st2 : Component.t,
    step c nodes links st (NodeClick i) = Ok st1 /\
    step c nodes links st1 (NodeClick i) = Ok st2 /\
    run c nodes links st [NodeClick i; NodeClick i] = Ok st2 /\
    Component.selectedNode st1 =
      (if decide (Component.selectedNode st = Some (Node.id (NodeG.node g)))
       then None else Some (Node.id (NodeG.node g))) /\
    Component.selectedNode st2 =
      (if decide (Component.selectedNode st = Some (Node.id (NodeG.node g)))
       then Some (Node.id (NodeG.node g)) else None).
Proof.
  intros Hshows Hi.
  destruct (step_NodeClick c nodes links st i g Hshows Hi)
    as (s1 & g1 & Hstep1 & Hi1 & Hg1 & Hshows1).
  destruct (step_NodeClick c nodes links _ i g1 Hshows1 Hi1)
    as (s2 & g2 & Hstep2 & _ & _ & _).
  eexists _, _. split; [exact Hstep1 |]. split; [exact Hstep2 |].
  split; [eapply run_two; eassumption |].
  split; [reflexivity |].
  simpl. rewrite Hg1. repeat case_decide; congruence.
Qed.

Lemma click_toggles_selection_witness :
  exists st0 st1 st2 : Component.t,
    mount canvas0 nodes0 links0 = Ok st0 /\
    run canvas0 nodes0 links0 st0 [NodeClick 3; NodeClick 3] = Ok st2 /\
    Component.selectedNode st1 = Some 3%Z /\
    Component.selectedNode st2 = None.
Proof.
  destruct (mount canvas0 nodes0 links0) as [st0 | e] eqn:Hm;
    [| vm_compute in Hm; discriminate Hm].
  assert (Hshows : shows canvas0 nodes0 links0 st0)
    by (apply reachable_shows, reachable_mount, Hm).
  assert (Hsel : Component.selectedNode st0 = None)
    by (apply mount_Ok in Hm as (s & _ & ->); reflexivity).
  destruct (Svg.nodeGroup (Component.svg st0) !! 3%nat) as [g |] eqn:Hg.
  - destruct (click_toggles_selection canvas0 nodes0 links0 st0 3 g Hshows Hg)
      as (st1 & st2 & _ & _ & Hrun & H1 & H2).
    rewrite Hsel in H1, H2.
    assert (Hid : Node.id (NodeG.node g) = 3%Z).
    { pose proof (shows_lookup _ _ _ _ _ _ Hshows Hg) as Hn.
      injection Hn as <-. reflexivity. }
    rewrite Hid in H1, H2.
    exists st0, st1, st2. auto.
  - exfalso. destruct Hshows as [_ Hnodes].
    apply (f_equal (fun l => l !! 3%nat)) in Hnodes.
    rewrite list_lookup_fmap, Hg in Hnodes. discriminate Hnodes.
Defined.

(** C8: the hovered id is one id or none; entering a node makes its id the
    hovered one, whatever id was hovered before; leaving a node clears it;
    a click and the events of the ribbons leave it as it is. *)
Theorem hover_exclusive (c : Canvas.t) (nodes : list Node.t)
    (links : list Link.t) (st st' : Component.t) (ev : Event) :
  step c nodes links st ev = Ok st' ->
  Component.hoveredNode st' =
    match ev with
    | NodeMouseEnter i =>
        match Svg.nodeGroup (Component.svg st) !! i with
        | Some g => Some (Node.id (NodeG.node g))
        | None => Component.hoveredNode st
        end
    | NodeMouseLeave i =>
        match Svg.nodeGroup (Component.svg st) !! i with
        | Some g => None
        | None => Component.hoveredNode st
        end
    | NodeClick _ | LinkMouseEnter _ | LinkMouseLeave _ =>
        Component.hoveredNode st
    end.
Proof.
  intros Hstep.
  step_cases st ev Hstep; try (injection Hstep as <-; reflexivity).
  unfold onNodeClick in Hstep.
  apply bind_Ok in Hstep as (s & _ & [= <-]). reflexivity.
Qed.

Lemma hover_exclusive_witness :
  let n := Node.mk 9 "Decreasing" 3 "trend" 0.540 None false in
  let g := node_group (Pos.mk 925 310 130 45 0.540) n in
  let st := Component.mk (Some 5%Z) None (Svg.mk [] [g] []) in
  step canvas0 nodes0 links0 st (NodeMouseEnter 0) =
    Ok (onNodeMouseEnter 0 n st) /\
  Component.hoveredNode (onNodeMouseEnter 0 n st) = Some 9%Z.
Proof.
  intros n g st. split; [reflexivity |].
  exact (hover_exclusive canvas0 nodes0 links0 st (onNodeMouseEnter 0 n st)
           (NodeMouseEnter 0) eq_refl).
Defined.

(** C10: entering a node sets the opacity of every rectangle of the
    drawing, the five swatches of the legend included, to 0.3, and that of
    the entered node to 1; leaving it sets every rectangle to 0.85; the
    swatches, drawn without an opacity, are thus at 0.85 after the first
    enter and leave. *)
Theorem node_hover_dims_legend (c : Canvas.t) (nodes : list Node.t)
    (links : list Link.t) (st : Component.t) (i : nat) (g : NodeG.t) :
  Svg.nodeGroup (Component.svg st) !! i = Some g ->
  exists st1 st2 : Component.t,
    step c nodes links st (NodeMouseEnter i) = Ok st1 /\
    step c nodes links st1 (NodeMouseLeave i) = Ok st2 /\
    (forall r, r ∈ Svg.legendGroup (Component.svg st1) ->
               RectEl.opacity r = Some 0.3) /\
    (forall j g', Svg.nodeGroup (Component.svg st1) !! j = Some g' ->
                  RectEl.opacity (NodeG.rect g') =
                  Some (if decide (j = i) then 1 else 0.3)) /\
    (forall r, r ∈ Svg.legendGroup (Component.svg st2) ->
               RectEl.opacity r = Some 0.85) /\
    (forall g', g' ∈ Svg.nodeGroup (Component.svg st2) ->
                RectEl.opacity (NodeG.rect g') = Some 0.85) /\
    length (Svg.legendGroup (Component.svg st2)) =
      length (Svg.legendGroup (Component.svg st)) /\
    RectEl.fill <$> Svg.legendGroup (Component.svg st2) =
      RectEl.fill <$> Svg.legendGroup (Component.svg st) /\
    (forall previous : Svg.t,
        draw c nodes links previous = Ok (Component.svg st) ->
        length (Svg.legendGroup (Component.svg st)) = 5%nat /\
        (forall r, r ∈ Svg.legendGroup (Component.svg st) ->
                   RectEl.opacity r = None) /\
        (forall g', g' ∈ Svg.nodeGroup (Component.svg st) ->
                    RectEl.opacity (NodeG.rect g') = Some 0.85)).
Proof.
  intros Hi.
  exists (onNodeMouseEnter i (NodeG.node g) st),
         (onNodeMouseLeave (onNodeMouseEnter i (NodeG.node g) st)).
  split; [simpl; now rewrite Hi |].
  split.
  { simpl. rewrite list_lookup_alter_eq, list_lookup_fmap, Hi. reflexivity. }
  split.
  { simpl. intros r Hr. apply list_elem_of_fmap in Hr as (r' & -> & _).
    reflexivity. }
  split.
  { simpl. intros j g' Hj. rewrite list_lookup_alter in Hj.
    destruct (decide (i = j)) as [<- | Hne].
    - rewrite list_lookup_fmap in Hj.
      apply fmap_Some in Hj as (g1 & _ & ->).
      destruct (decide (i = i)); [reflexivity | contradiction].
    - rewrite list_lookup_fmap in Hj.
      apply fmap_Some in Hj as (g1 & _ & ->).
      destruct (decide (j = i)); [congruence | reflexivity]. }
  split.
  { simpl. intros r Hr. apply list_elem_of_fmap in Hr as (r' & -> & _).
    reflexivity. }
  split.
  { simpl. intros g' Hg'. apply list_elem_of_fmap in Hg' as (g1 & -> & _).
    reflexivity. }
  split; [simpl; now rewrite !length_fmap |].
  split.
  { simpl. rewrite <- !list_fmap_compose. apply list_fmap_ext.
    intros _ r _. reflexivity. }
  intros previous Hdraw.
  apply draw_Ok in Hdraw as (np & _ & _ & Hall & ->).
  split; [reflexivity |]. split.
  - intros r Hr. apply list_elem_of_fmap in Hr as (item & -> & _).
    reflexivity.
  - intros g' Hg'. apply list_elem_of_lookup in Hg' as [j Hj].
    destruct (Forall2_lookup_r _ _ _ _ _ Hall Hj) as (n & _ & pos & _ & ->).
    reflexivity.
Qed.

Lemma node_hover_dims_legend_witness :
  exists st0 st2 : Component.t,
    mount canvas0 nodes0 links0 = Ok st0 /\
    run canvas0 nodes0 links0 st0 [NodeMouseEnter 0; NodeMouseLeave 0]
      = Ok st2 /\
    RectEl.opacity <$> Svg.legendGroup (Component.svg st0) =
      [None; None; None; None; None] /\
    forall r, r ∈ Svg.legendGroup (Component.svg st2) ->
              RectEl.opacity r = Some 0.85.
Proof.
  destruct (mount canvas0 nodes0 links0) as [st0 | e] eqn:Hm;
    [| vm_compute in Hm; discriminate Hm].
  destruct (Svg.nodeGroup (Component.svg st0) !! 0%nat) as [g |] eqn:Hg;
    [| vm_compute in Hm; injection Hm as <-; discriminate Hg].
  destruct (node_hover_dims_legend canvas0 nodes0 links0 st0 0 g Hg)
    as (st1 & st2 & H1 & H2 & _ & _ & Hleg & _).
  exists st0, st2. split; [reflexivity |].
  split; [eapply run_two; eassumption |].
  split; [| exact Hleg].
  vm_compute in Hm. injection Hm as <-. reflexivity.
Defined.

(** * Further properties of the layout *)

Lemma num_succ_le (i j : nat) : (i < j)%nat -> num i + 1 <= num j.
Proof.
  intros Hij. unfold num.
  change 1 with (inject_Z 1). rewrite <- inject_Z_plus.
  rewrite <- Zle_Qle. lia.
Qed.

Lemma num_minus (i j : nat) : (i <= j)%nat -> num (j - i) == num j - num i.
Proof.
  intros Hij. unfold num.
  rewrite Nat2Z.inj_sub by exact Hij.
  unfold Zminus. rewrite inject_Z_plus, inject_Z_opp. reflexivity.
Qed.

Lemma num_nonneg (i : nat) : 0 <= num i.
Proof.
  unfold num. change 0 with (inject_Z 0). rewrite <- Zle_Qle. lia.
Qed.

(** X1: two nodes of one layer are in the same column, [nodeHeight + 15]
    apart per place, so the lower box begins 15 below the end of the upper
    one at least: the boxes of a layer never overlap, whatever their
    number. *)
Theorem same_layer_spacing (c : Canvas.t) (nodes : list Node.t)
    (li i j : nat) (ni nj : Node.t) :
  NoDup (Node.id <$> nodes) ->
  valid_layers nodes ->
  bucket li nodes !! i = Some ni ->
  bucket li nodes !! j = Some nj ->
  (i < j)%nat ->
  exists (np : gmap Z Pos.t) (pi pj : Pos.t),
    nodePositions c nodes = Ok np /\
    np !! Node.id ni = Some pi /\
    np !! Node.id nj = Some pj /\
    Pos.x pi = Pos.x pj /\
    Pos.y pj == Pos.y pi + num (j - i) * 60 /\
    Pos.y pi + Pos.height pi + 15 <= Pos.y pj.
Proof.
  intros Hnd Hvalid Hi Hj Hij.
  destruct (nodePositions_lookup c nodes li i ni Hnd Hvalid Hi)
    as (np & Hnp & Hpi).
  destruct (nodePositions_lookup c nodes li j nj Hnd Hvalid Hj)
    as (np' & Hnp' & Hpj).
  rewrite Hnp in Hnp'. injection Hnp' as <-.
  eexists np, _, _. split; [exact Hnp |].
  split; [exact Hpi |]. split; [exact Hpj |].
  split; [reflexivity |].
  pose proof (num_succ_le i j Hij) as Hle.
  pose proof (num_minus i j (Nat.lt_le_incl _ _ Hij)) as Hm.
  unfold position_of, nodeHeight; simpl.
  split; [rewrite Hm; ring | lra].
Qed.

Lemma same_layer_spacing_witness :
  exists (np : gmap Z Pos.t) (pi pj : Pos.t),
    nodePositions canvas0 nodes0 = Ok np /\
    np !! 6%Z = Some pi /\ np !! 8%Z = Some pj /\
    Pos.y pi + Pos.height pi + 15 <= Pos.y pj.
Proof.
  destruct (same_layer_spacing canvas0 nodes0 2 0 2
              (Node.mk 6 "Small Range" 2 "habitat" 0.282 None false)
              (Node.mk 8 "Large Range" 2 "habitat" 0.114 None false)
              nodes0_NoDup nodes0_valid eq_refl eq_refl)
    as (np & pi & pj & Hnp & Hpi & Hpj & _ & _ & Hle); [lia |].
  exists np, pi, pj. auto.
Defined.

(** X2: the five columns are equally spaced: a node of layer [li] has its
    left edge at [margin.left + li * (width - margin.left - margin.right) / 4],
    which is [margin.left] for the first layer and [width - margin.right]
    for the fifth; every box is 130 wide and 45 high and keeps the score of
    its node. *)
Theorem layer_column (c : Canvas.t) (nodes : list Node.t)
    (li ni : nat) (node : Node.t) :
  NoDup (Node.id <$> nodes) ->
  valid_layers nodes ->
  bucket li nodes !! ni = Some node ->
  exists (np : gmap Z Pos.t) (pos : Pos.t),
    nodePositions c nodes = Ok np /\
    np !! Node.id node = Some pos /\
    Pos.x pos ==
      Margin.left (Canvas.margin c)
      + num li * ((Canvas.width c - Margin.left (Canvas.margin c)
                   - Margin.right (Canvas.margin c)) / 4) /\
    (li = 0%nat -> Pos.x pos == Margin.left (Canvas.margin c)) /\
    (li = 4%nat ->
     Pos.x pos == Canvas.width c - Margin.right (Canvas.margin c)) /\
    Pos.width pos = 130 /\ Pos.height pos = 45 /\
    Pos.riskScore pos = Node.riskScore node.
Proof.
  intros Hnd Hvalid Hni.
  destruct (nodePositions_lookup c nodes li ni node Hnd Hvalid Hni)
    as (np & Hnp & Hpos).
  eexists np, _. split; [exact Hnp |]. split; [exact Hpos |].
  unfold position_of, layerWidth; simpl.
  split; [reflexivity |].
  split; [intros ->; unfold num; simpl; field |].
  split; [intros ->; unfold num; simpl; field |].
  auto.
Qed.

Lemma layer_column_witness :
  exists (np : gmap Z Pos.t) (pos : Pos.t),
    nodePositions canvas0 nodes0 = Ok np /\
    np !! 13%Z = Some pos /\
    Pos.x pos == 1300.
Proof.
  destruct (layer_column canvas0 nodes0 4 1
              (Node.mk 13 "MEDIUM RISK" 4 "prediction" 0.55 (Some 3400%Z) true)
              nodes0_NoDup nodes0_valid eq_refl)
    as (np & pos & Hnp & Hpos & _ & _ & Hx & _).
  exists np, pos. split; [exact Hnp |]. split; [exact Hpos |].
  rewrite (Hx eq_refl). reflexivity.
Defined.

(** X3: the layout never shrinks or clamps a layer.  When the slots of a
    layer fit in the usable height, every box of the layer lies between the
    top and the bottom margin; when they do not, the first box of the layer
    begins above the top margin. *)
Theorem layer_vertical_extent (c : Canvas.t) (nodes : list Node.t)
    (li ni : nat) (node : Node.t) :
  NoDup (Node.id <$> nodes) ->
  valid_layers nodes ->
  bucket li nodes !! ni = Some node ->
  exists (np : gmap Z Pos.t) (pos : Pos.t),
    nodePositions c nodes = Ok np /\
    np !! Node.id node = Some pos /\
    (num (length (bucket li nodes)) * 60 <= layerHeight c ->
     Margin.top (Canvas.margin c) <= Pos.y pos /\
     Pos.y pos + Pos.height pos + 15 <=
       Canvas.height c - Margin.bottom (Canvas.margin c)) /\
    (layerHeight c < num (length (bucket li nodes)) * 60 ->
     ni = 0%nat ->
     Pos.y pos < Margin.top (Canvas.margin c)).
Proof.
  intros Hnd Hvalid Hni.
  destruct (nodePositions_lookup c nodes li ni node Hnd Hvalid Hni)
    as (np & Hnp & Hpos).
  eexists np, _. split; [exact Hnp |]. split; [exact Hpos |].
  pose proof (num_succ_le ni _ (lookup_lt_Some _ _ _ Hni)) as Hlt.
  pose proof (num_nonneg ni) as Hge.
  assert (Hhalf : / 2 == 1 # 2) by reflexivity.
  unfold position_of, startY, totalHeight, layerHeight, nodeHeight; simpl.
  unfold Qdiv. rewrite Hhalf.
  split.
  - intros Hfit. unfold layerHeight in Hfit. split; lra.
  - intros Hover ->. unfold layerHeight in Hover.
    change (num 0) with 0. lra.
Qed.

Lemma layer_vertical_extent_witness :
  exists (np : gmap Z Pos.t) (pos : Pos.t),
    nodePositions canvas0 nodes0 = Ok np /\
    np !! 11%Z = Some pos /\
    80 <= Pos.y pos /\ Pos.y pos + Pos.height pos + 15 <= 720.
Proof.
  destruct (layer_vertical_extent canvas0 nodes0 3 2
              (Node.mk 11 "Increasing" 3 "trend" 0.180 None false)
              nodes0_NoDup nodes0_valid eq_refl)
    as (np & pos & Hnp & Hpos & Hfit & _).
  exists np, pos. split; [exact Hnp |]. split; [exact Hpos |].
  apply Hfit. vm_compute. discriminate.
Defined.

(** * Further properties of the drawing *)

Lemma forEachM_Ok_elem {A St : Type} (body : St -> A -> result St)
    (arr : list A) :
  forall s s' : St,
    forEachM body arr s = Ok s' ->
    forall a, a ∈ arr -> exists s1 s2, body s1 a = Ok s2.
Proof.
  induction arr as [| a0 arr IH]; intros s s' Hok a Ha; [inversion Ha |].
  rewrite forEachM_cons in Hok.
  apply bind_Ok in Hok as (s0 & H0 & Hok).
  apply elem_of_cons in Ha as [-> | Ha]; [eauto | eapply IH; eauto].
Qed.

Lemma forEachM_all_Ok {A St : Type} (body : St -> A -> result St)
    (arr : list A) :
  (forall s a, a ∈ arr -> exists s', body s a = Ok s') ->
  forall s : St, exists s', forEachM body arr s = Ok s'.
Proof.
  induction arr as [| a0 arr IH]; intros Hall s; [now exists s |].
  rewrite forEachM_cons.
  destruct (Hall s a0) as [s0 ->]; [left |]. simpl.
  apply IH. intros s1 a Ha. apply Hall. now right.
Qed.

Lemma at_index_in_bounds {A : Type} (arr : list A) (i : Z) :
  (exists a, at_index arr i = Ok a) <-> in_bounds arr i.
Proof.
  unfold in_bounds. split.
  - intros [a Ha]. apply at_index_Ok in Ha as [Hi Ha].
    apply lookup_lt_Some in Ha. lia.
  - intros Hi.
    destruct (lookup_lt_is_Some_2 arr (Z.to_nat i)) as [a Ha]; [lia |].
    exists a. apply at_index_Ok. split; [lia | exact Ha].
Qed.

(** The body of the link loop finishes exactly when both ends of the link
    are keys of [nodePositions] and indices of [nodes]. *)
Lemma drawLink_Ok_iff (nodes : list Node.t) (links : list Link.t)
    (np : gmap Z Pos.t) (acc : list PathEl.t) (link : Link.t) :
  (exists acc', drawLink nodes links np acc link = Ok acc') <->
  is_Some (np !! Link.source link) /\ is_Some (np !! Link.target link) /\
  in_bounds nodes (Link.source link) /\ in_bounds nodes (Link.target link).
Proof.
  split.
  - intros [acc' Hok].
    apply drawLink_Ok in Hok as (src & tgt & sn & tn & Hs & Ht & Hsn & Htn & _).
    split; [eauto |]. split; [eauto |].
    split; apply at_index_in_bounds; eauto.
  - intros ([src Hs] & [tgt Ht] & Hsb & Htb).
    apply at_index_in_bounds in Hsb as [sn Hsn], Htb as [tn Htn].
    unfold drawLink.
    rewrite (proj2 (at_key_Ok _ _ _) Hs), (proj2 (at_key_Ok _ _ _) Ht).
    simpl. rewrite Hsn, Htn. simpl. eauto.
Qed.

(** X4: the effect finishes, whatever the svg held before, exactly on the
    datasets whose layers are among the five and whose links name, at both
    ends, a number that is the id of a node and also an index of [nodes];
    on every other dataset it throws. *)
Theorem draw_Ok_iff_drawable (c : Canvas.t) (nodes : list Node.t)
    (links : list Link.t) (previous : Svg.t) :
  ((exists s : Svg.t, draw c nodes links previous = Ok s) <->
   drawable nodes links) /\
  (~ drawable nodes links -> draw c nodes links previous = Throw TypeError).
Proof.
  assert (Hiff : (exists s : Svg.t, draw c nodes links previous = Ok s) <->
                 drawable nodes links); [| split; [exact Hiff |]].
  2: { intros Hnot. destruct (draw c nodes links previous) as [s | []] eqn:E;
         [| reflexivity].
       exfalso. apply Hnot, Hiff. eauto. }
  split.
  - intros [s Hok]. apply draw_Ok in Hok as (np & Hnp & Hlinks & _).
    pose proof (nodePositions_dom c nodes np Hnp) as Hdom.
    split.
    + unfold nodePositions in Hnp.
      destruct (group_layers nodes) eqn:Hg; [| discriminate Hnp].
      eapply group_layers_Ok; eauto.
    + intros link Hlink.
      destruct (forEachM_Ok_elem _ _ _ _ Hlinks link Hlink) as (s1 & s2 & H).
      destruct (proj1 (drawLink_Ok_iff nodes links np s1 link))
        as (Hs & Ht & Hsb & Htb); [eauto |].
      apply Hdom in Hs, Ht. auto.
  - intros [Hvalid Hlinks].
    destruct (nodePositions c nodes) as [np | e] eqn:Hnp.
    + pose proof (nodePositions_dom c nodes np Hnp) as Hdom.
      destruct (forEachM_all_Ok (drawLink nodes links np) links) with (s := @nil PathEl.t)
        as [lg Hlg].
      { intros acc link Hlink. apply drawLink_Ok_iff.
        destruct (Hlinks link Hlink) as (Hs & Ht & Hsb & Htb).
        apply Hdom in Hs, Ht. auto. }
      destruct (forEachM_drawNode_Ok np nodes) with (acc := @nil NodeG.t)
        as [ng Hng].
      { intros n Hn. apply Hdom. apply list_elem_of_fmap. eauto. }
      unfold draw. rewrite Hnp. simpl. rewrite Hlg. simpl. rewrite Hng.
      simpl. eauto.
    + unfold nodePositions in Hnp.
      rewrite (group_layers_valid _ Hvalid) in Hnp. discriminate Hnp.
Qed.

(** A property of every position that the loops write holds of every entry
    of [nodePositions]. *)
Lemma nodePositions_forall (P : Pos.t -> Prop) (c : Canvas.t)
    (nodes : list Node.t) (np : gmap Z Pos.t) :
  (forall li layer n ni, P (position_of c li layer n ni)) ->
  nodePositions c nodes = Ok np ->
  forall k pos, np !! k = Some pos -> P pos.
Proof.
  intros HP Hnp. unfold nodePositions in Hnp.
  destruct (group_layers nodes) as [layers |]; [| discriminate Hnp].
  simpl in Hnp. injection Hnp as <-. unfold forEach.
  apply (forEach_from_inv
           (fun s : gmap Z Pos.t => forall k pos, s !! k = Some pos -> P pos)).
  - intros k pos. rewrite lookup_empty. discriminate.
  - intros s li layer _ Hs. simpl. unfold place_layer, forEach.
    apply (forEach_from_inv
             (fun s : gmap Z Pos.t =>
                forall k pos, s !! k = Some pos -> P pos)); [exact Hs |].
    intros s' j n _ Hs' k pos. simpl. rewrite lookup_place_node.
    destruct (decide (Node.id n = k)); [intros [= <-]; apply HP | apply Hs'].
Qed.

(** X5: what a finished run of the effect has drawn.  There is one path per
    link, in order, at opacity 0.25, filled with the colour of the binary64
    mean of the scores found at the two array indices; one group per node,
    in order, whose 130 by 45 rectangle at opacity 0.85 has the colour of
    the node's own score and a white stroke of width 2 exactly for the nodes
    marked [future]; and five swatches with the five colours of the scale,
    from VeryHigh to VeryLow, so that every colour the scale can give, for a
    double as for a real number, is in the legend. *)
Theorem draw_contents (c : Canvas.t) (nodes : list Node.t)
    (links : list Link.t) (previous s : Svg.t) :
  draw c nodes links previous = Ok s ->
  Forall2 (fun link p =>
             PathEl.opacity p = 0.25 /\
             exists sn tn : Node.t,
               at_index nodes (Link.source link) = Ok sn /\
               at_index nodes (Link.target link) = Ok tn /\
               PathEl.fill p =
                 getRiskColor64
                   (div64 (add64 (round64 (Node.riskScore sn))
                                 (round64 (Node.riskScore tn)))
                          (Finite 2)))
    links (Svg.linkGroup s) /\
  Forall2 (fun n g =>
             NodeG.node g = n /\
             RectEl.fill (NodeG.rect g) =
               getRiskColor64 (round64 (Node.riskScore n)) /\
             RectEl.opacity (NodeG.rect g) = Some 0.85 /\
             RectEl.stroke (NodeG.rect g) =
               Some (if Node.future n then "#fff" else "none") /\
             RectEl.stroke_width (NodeG.rect g) =
               Some (if Node.future n then 2 else 0) /\
             RectEl.width (NodeG.rect g) = 130 /\
             RectEl.height (NodeG.rect g) = 45)
    nodes (Svg.nodeGroup s) /\
  RectEl.fill <$> Svg.legendGroup s =
    bandColor <$> [VeryHigh; High; Medium; Low; VeryLow] /\
  (forall score : F64,
      getRiskColor64 score ∈ (RectEl.fill <$> Svg.legendGroup s)) /\
  (forall score : Q, getRiskColor score ∈ (RectEl.fill <$> Svg.legendGroup s)).
Proof.
  intros Hok. apply draw_Ok in Hok as (np & Hnp & Hlinks & Hnodes & Hleg).
  split; [| split; [| split; [| split]]].
  - apply forEachM_drawLink in Hlinks as (ps & -> & Hall). simpl.
    eapply Forall2_impl; [exact Hall |].
    intros link p Hp.
    apply drawLink_Ok in Hp as (src & tgt & sn & tn & _ & _ & Hsn & Htn & Hp).
    simpl in Hp. injection Hp as ->. simpl.
    split; [reflexivity |]. exists sn, tn. auto.
  - eapply Forall2_impl; [exact Hnodes |].
    intros n g (pos & Hpos & ->). simpl.
    destruct (nodePositions_forall
                (fun p => Pos.width p = 130 /\ Pos.height p = 45)
                c nodes np (fun _ _ _ _ => conj eq_refl eq_refl) Hnp _ _ Hpos)
      as [-> ->].
    repeat (split; [reflexivity |]). reflexivity.
  - rewrite Hleg. reflexivity.
  - intros score. rewrite Hleg. simpl.
    destruct (getRiskColor64_band score) as [b ->].
    destruct b; set_solver.
  - intros score. rewrite Hleg. simpl.
    unfold getRiskColor.
    repeat (destruct (gt score _)); set_solver.
Qed.

Lemma draw_contents_witness :
  exists s : Svg.t,
    draw canvas0 nodes0 links0 (Svg.mk [] [] []) = Ok s /\
    length (Svg.linkGroup s) = 36%nat /\
    length (Svg.nodeGroup s) = 15%nat /\
    length (Svg.legendGroup s) = 5%nat.
Proof.
  destruct (draw canvas0 nodes0 links0 (Svg.mk [] [] [])) as [s | e] eqn:Hs;
    [| vm_compute in Hs; discriminate Hs].
  destruct (draw_contents canvas0 nodes0 links0 _ s Hs)
    as (Hl & Hn & Hleg & _).
  exists s. split; [reflexivity |].
  apply Forall2_length in Hl, Hn.
  apply (f_equal length) in Hleg. rewrite !length_fmap in Hleg.
  rewrite <- Hl, <- Hn, Hleg. auto.
Defined.

(** X6: ids are not checked for uniqueness.  In a finished drawing, two
    node groups whose nodes have the same id are drawn at the same place,
    one over the other, even when their nodes are in different layers. *)
Theorem same_id_same_place (c : Canvas.t) (nodes : list Node.t)
    (links : list Link.t) (previous s : Svg.t) (i j : nat) (g1 g2 : NodeG.t) :
  draw c nodes links previous = Ok s ->
  Svg.nodeGroup s !! i = Some g1 ->
  Svg.nodeGroup s !! j = Some g2 ->
  Node.id (NodeG.node g1) = Node.id (NodeG.node g2) ->
  NodeG.transform g1 = NodeG.transform g2.
Proof.
  intros Hok Hi Hj Hid.
  apply draw_Ok in Hok as (np & _ & _ & Hnodes & _).
  destruct (Forall2_lookup_r _ _ _ _ _ Hnodes Hi) as (n1 & _ & p1 & Hp1 & ->).
  destruct (Forall2_lookup_r _ _ _ _ _ Hnodes Hj) as (n2 & _ & p2 & Hp2 & ->).
  simpl in Hid. rewrite Hid, Hp2 in Hp1. injection Hp1 as ->. reflexivity.
Qed.

Lemma same_id_same_place_witness :
  exists (s : Svg.t) (g1 g2 : NodeG.t),
    draw canvas0 nodes_twice [] (Svg.mk [] [] []) = Ok s /\
    Svg.nodeGroup s = [g1; g2] /\
    Node.layer (NodeG.node g1) = 0%Z /\
    Node.layer (NodeG.node g2) = 3%Z /\
    NodeG.transform g1 = NodeG.transform g2.
Proof.
  destruct (draw canvas0 nodes_twice [] (Svg.mk [] [] [])) as [s | e] eqn:Hs;
    [| vm_compute in Hs; discriminate Hs].
  destruct (Svg.nodeGroup s) as [| g1 [| g2 [| g3 gs]]] eqn:Hg;
    try (vm_compute in Hs; injection Hs as <-; discriminate Hg).
  exists s, g1, g2. split; [reflexivity |]. split; [exact Hg |].
  assert (Hn1 : NodeG.node g1 = Node.mk 7 "A" 0 "activity" 0.2 None false)
    by (vm_compute in Hs; injection Hs as <-; injection Hg as <- _;
        reflexivity).
  assert (Hn2 : NodeG.node g2 = Node.mk 7 "B" 3 "trend" 0.8 None false)
    by (vm_compute in Hs; injection Hs as <-; injection Hg as _ <-;
        reflexivity).
  split; [now rewrite Hn1 |]. split; [now rewrite Hn2 |].
  apply (same_id_same_place canvas0 nodes_twice [] _ s 0 1 g1 g2 Hs).
  - now rewrite Hg.
  - now rewrite Hg.
  - now rewrite Hn1, Hn2.
Defined.

(** * Further properties of the interaction *)

Lemma list_alter_fixed {A : Type} (f : A -> A) (l : list A) (i : nat) :
  (forall x, l !! i = Some x -> f x = x) -> alter f i l = l.
Proof.
  intros Hf. rewrite (list_alter_ext f id l l i); [| exact Hf | reflexivity].
  now apply list_alter_id.
Qed.

(** X7: entering a ribbon raises the opacity of that path alone to 0.6 and
    touches nothing else, neither the other paths nor the rectangles nor the
    two state cells; leaving it puts the opacity back to 0.25, so that on a
    path drawn at 0.25 an enter followed by a leave restores the whole
    component state. *)
Theorem link_hover_round_trip (c : Canvas.t) (nodes : list Node.t)
    (links : list Link.t) (st : Component.t) (j : nat) (p : PathEl.t) :
  Svg.linkGroup (Component.svg st) !! j = Some p ->
  exists st1 st2 : Component.t,
    step c nodes links st (LinkMouseEnter j) = Ok st1 /\
    step c nodes links st1 (LinkMouseLeave j) = Ok st2 /\
    Svg.linkGroup (Component.svg st1) !! j =
      Some (PathEl.mk (PathEl.d p) (PathEl.fill p) 0.6) /\
    (forall k, k <> j ->
               Svg.linkGroup (Component.svg st1) !! k =
               Svg.linkGroup (Component.svg st) !! k) /\
    Svg.nodeGroup (Component.svg st1) = Svg.nodeGroup (Component.svg st) /\
    Svg.legendGroup (Component.svg st1) = Svg.legendGroup (Component.svg st) /\
    Component.hoveredNode st1 = Component.hoveredNode st /\
    Component.selectedNode st1 = Component.selectedNode st /\
    Svg.linkGroup (Component.svg st2) !! j =
      Some (PathEl.mk (PathEl.d p) (PathEl.fill p) 0.25) /\
    (PathEl.opacity p = 0.25 -> st2 = st).
Proof.
  intros Hj.
  exists (onLinkMouseEnter j st), (onLinkMouseLeave j (onLinkMouseEnter j st)).
  split; [simpl; now rewrite Hj |].
  split; [simpl; now rewrite list_lookup_alter_eq, Hj |].
  split; [simpl; now rewrite list_lookup_alter_eq, Hj |].
  split; [intros k Hk; simpl; now rewrite list_lookup_alter_ne |].
  do 4 (split; [reflexivity |]).
  split; [simpl; now rewrite !list_lookup_alter_eq, Hj |].
  intros Hop. destruct st as [h sel [lg ng leg]]. simpl in *.
  unfold onLinkMouseLeave, onLinkMouseEnter, select_this_path_attr_opacity.
  simpl. rewrite list_alter_alter_eq. do 2 f_equal.
  apply list_alter_fixed. intros x Hx. rewrite Hj in Hx. injection Hx as <-.
  destruct p as [d f o]. simpl in *. now rewrite Hop.
Qed.

Lemma link_hover_round_trip_witness :
  exists st0 st2 : Component.t,
    mount canvas0 nodes0 links0 = Ok st0 /\
    run canvas0 nodes0 links0 st0 [LinkMouseEnter 5; LinkMouseLeave 5]
      = Ok st2 /\
    st2 = st0.
Proof.
  destruct (mount canvas0 nodes0 links0) as [st0 | e] eqn:Hm;
    [| vm_compute in Hm; discriminate Hm].
  destruct (Svg.linkGroup (Component.svg st0) !! 5%nat) as [p |] eqn:Hp;
    [| vm_compute in Hm; injection Hm as <-; discriminate Hp].
  destruct (link_hover_round_trip canvas0 nodes0 links0 st0 5 p Hp)
    as (st1 & st2 & H1 & H2 & _ & _ & _ & _ & _ & _ & _ & Hback).
  exists st0, st2. split; [reflexivity |].
  split; [eapply run_two; eassumption |].
  apply Hback. vm_compute in Hm. injection Hm as <-.
  vm_compute in Hp. injection Hp as <-. reflexivity.
Defined.

(** X8: a click redraws everything.  After a click on a node of the
    drawing, the svg is the one of the first render, so every opacity set by
    a hover since the last drawing is back to its initial value, while the
    hovered id is kept as it was. *)
Theorem click_redraws (c : Canvas.t) (nodes : list Node.t)
    (links : list Link.t) (st st' : Component.t) (i : nat) (g : NodeG.t) :
  Svg.nodeGroup (Component.svg st) !! i = Some g ->
  step c nodes links st (NodeClick i) = Ok st' ->
  mount c nodes links = Ok (Component.mk None None (Component.svg st')) /\
  Component.hoveredNode st' = Component.hoveredNode st.
Proof.
  intros Hi Hstep. simpl in Hstep. rewrite Hi in Hstep.
  unfold onNodeClick in Hstep.
  apply bind_Ok in Hstep as (s & Hs & [= <-]). simpl.
  split; [| reflexivity].
  apply mount_Ok. exists s. split; [| reflexivity].
  now rewrite (draw_previous c nodes links _ (Component.svg st)).
Qed.

Lemma click_redraws_witness :
  exists st0 st1 st2 : Component.t,
    mount canvas0 nodes0 links0 = Ok st0 /\
    step canvas0 nodes0 links0 st0 (NodeMouseEnter 4) = Ok st1 /\
    step canvas0 nodes0 links0 st1 (NodeClick 4) = Ok st2 /\
    Component.svg st2 = Component.svg st0 /\
    Component.hoveredNode st2 = Some 4%Z.
Proof.
  destruct (mount canvas0 nodes0 links0) as [st0 | e] eqn:Hm;
    [| vm_compute in Hm; discriminate Hm].
  destruct (step canvas0 nodes0 links0 st0 (NodeMouseEnter 4))
    as [st1 | e] eqn:H1;
    [| vm_compute in Hm; injection Hm as <-; vm_compute in H1;
       discriminate H1].
  destruct (step canvas0 nodes0 links0 st1 (NodeClick 4)) as [st2 | e] eqn:H2;
    [| vm_compute in Hm; injection Hm as <-; vm_compute in H1;
       injection H1 as <-; vm_compute in H2; discriminate H2].
  destruct (Svg.nodeGroup (Component.svg st1) !! 4%nat) as [g |] eqn:Hg;
    [| vm_compute in Hm; injection Hm as <-; vm_compute in H1;
       injection H1 as <-; discriminate Hg].
  destruct (click_redraws canvas0 nodes0 links0 st1 st2 4 g Hg H2)
    as [Hmount Hhov].
  exists st0, st1, st2.
  split; [reflexivity |]. split; [exact H1 |]. split; [exact H2 |].
  rewrite Hm in Hmount. injection Hmount as Heq.
  split; [now rewrite Heq |].
  rewrite Hhov. vm_compute in Hm. injection Hm as <-.
  vm_compute in H1. injection H1 as <-. reflexivity.
Defined.

(** X9: only a click changes the selection: the pointer entering or leaving
    a node or a ribbon leaves the selected id as it is. *)
Theorem hover_keeps_selection (c : Canvas.t) (nodes : list Node.t)
    (links : list Link.t) (st st' : Component.t) (ev : Event) :
  step c nodes links st ev = Ok st' ->
  (forall i, ev <> NodeClick i) ->
  Component.selectedNode st' = Component.selectedNode st.
Proof.
  intros Hstep Hev.
  step_cases st ev Hstep; try (injection Hstep as <-; reflexivity).
  now destruct (Hev i).
Qed.

Lemma hover_keeps_selection_witness :
  let n := Node.mk 9 "Decreasing" 3 "trend" 0.540 None false in
  let g := node_group (Pos.mk 925 310 130 45 0.540) n in
  let st := Component.mk None (Some 2%Z) (Svg.mk [] [g] []) in
  Component.selectedNode (onNodeMouseEnter 0 n st) = Some 2%Z.
Proof.
  intros n g st.
  apply (hover_keeps_selection canvas0 nodes0 links0 st
           (onNodeMouseEnter 0 n st) (NodeMouseEnter 0) eq_refl).
  intros i. discriminate.
Defined.

(** X10: in every state the component goes through, the hovered id and the
    selected id are each none or the id of a node of the dataset. *)
Theorem reachable_ids (c : Canvas.t) (nodes : list Node.t)
    (links : list Link.t) (st : Component.t) :
  reachable c nodes links st ->
  (forall k, Component.hoveredNode st = Some k -> k ∈ (Node.id <$> nodes)) /\
  (forall k, Component.selectedNode st = Some k -> k ∈ (Node.id <$> nodes)).
Proof.
  induction 1 as [st Hm | st st' ev Hr [IHh IHs] Hstep].
  - apply mount_Ok in Hm as (s & _ & ->). simpl. split; discriminate.
  - assert (Hg : forall i g, Svg.nodeGroup (Component.svg st) !! i = Some g ->
                             Node.id (NodeG.node g) ∈ (Node.id <$> nodes)).
    { intros i g Hi. apply list_elem_of_fmap. exists (NodeG.node g).
      split; [reflexivity |]. apply list_elem_of_lookup. exists i.
      eapply shows_lookup; [apply reachable_shows |]; eauto. }
    destruct ev as [i | i | i | j | j]; simpl in Hstep.
    + destruct (Svg.nodeGroup (Component.svg st) !! i) as [g |] eqn:Hi;
        injection Hstep as <-; [| auto].
      simpl. split; [intros k [= <-]; eauto | exact IHs].
    + destruct (Svg.nodeGroup (Component.svg st) !! i) as [g |] eqn:Hi;
        injection Hstep as <-; [| auto].
      simpl. split; [discriminate | exact IHs].
    + destruct (Svg.nodeGroup (Component.svg st) !! i) as [g |] eqn:Hi;
        [| injection Hstep as <-; auto].
      unfold onNodeClick in Hstep.
      apply bind_Ok in Hstep as (s & _ & [= <-]). simpl.
      split; [exact IHh |].
      intros k. case_decide; [discriminate | intros [= <-]; eauto].
    + destruct (Svg.linkGroup (Component.svg st) !! j);
        injection Hstep as <-; auto.
    + destruct (Svg.linkGroup (Component.svg st) !! j);
        injection Hstep as <-; auto.
Qed.

Lemma reachable_ids_witness :
  exists st0 st1 : Component.t,
    mount canvas0 nodes0 links0 = Ok st0 /\
    step canvas0 nodes0 links0 st0 (NodeClick 12) = Ok st1 /\
    forall k, Component.selectedNode st1 = Some k ->
              k ∈ (Node.id <$> nodes0).
Proof.
  destruct (mount canvas0 nodes0 links0) as [st0 | e] eqn:Hm;
    [| vm_compute in Hm; discriminate Hm].
  destruct (step canvas0 nodes0 links0 st0 (NodeClick 12))
    as [st1 | e] eqn:H1;
    [| vm_compute in Hm; injection Hm as <-; vm_compute in H1;
       discriminate H1].
  exists st0, st1. split; [reflexivity |]. split; [exact H1 |].
  apply (reachable_ids canvas0 nodes0 links0 st1).
  eapply reachable_step; [apply reachable_mount; exact Hm | exact H1].
Defined.

(** * Further properties of the ribbons *)

Lemma maxValue_pos (links : list Link.t) (link : Link.t) (m : Q) :
  link ∈ links -> 0 < Link.value link -> maxValue links = Finite m -> 0 < m.
Proof.
  intros Hin Hpos Hm.
  destruct (maxValue_spec links link Hin) as (m' & Hm' & _ & Hmax).
  rewrite Hm in Hm'. injection Hm' as <-.
  specialize (Hmax link Hin). lra.
Qed.

(** The largest value of a dataset scaled by a positive factor is the
    scaled largest value. *)
Lemma maxValue_scale (links : list Link.t) (link : Link.t) (k m : Q) :
  0 < k -> link ∈ links -> maxValue links = Finite m ->
  exists m', maxValue (scale_link k <$> links) = Finite m' /\ m' == k * m.
Proof.
  intros Hk Hin Hm.
  destruct (maxValue_spec links link Hin) as (m0 & Hm0 & Hel & Hmax).
  rewrite Hm in Hm0. injection Hm0 as <-.
  assert (Hin' : scale_link k link ∈ scale_link k <$> links)
    by (apply list_elem_of_fmap; eauto).
  destruct (maxValue_spec _ _ Hin') as (m' & Hm' & Hel' & Hmax').
  exists m'. split; [exact Hm' |].
  apply Qle_antisym.
  - apply list_elem_of_fmap in Hel' as (l' & -> & Hl').
    apply list_elem_of_fmap in Hl' as (l & -> & Hl).
    simpl. specialize (Hmax l Hl). nra.
  - apply list_elem_of_fmap in Hel as (l & -> & Hl).
    apply (Hmax' (scale_link k l)). apply list_elem_of_fmap. eauto.
Qed.

(** X11: the thickness depends on the proportions of the values only, as
    far as binary64 carries the scaling out exactly: when every value of a
    dataset and its product by a positive factor are doubles (a power of
    two as factor, say), the scaled dataset gives every ribbon of positive
    value the thickness it had.  With a factor such as 0.1, whose products
    are rounded, the last bit of the thickness can change. *)
Theorem linkHeight_scale_invariant (links : list Link.t) (link : Link.t)
    (k : Q) :
  0 < k ->
  link ∈ links ->
  0 < Link.value link ->
  (forall l, l ∈ links ->
     double (Link.value l) /\ double (k * Link.value l)) ->
  exists h h' : Q,
    linkHeight links link = Some h /\
    linkHeight (scale_link k <$> links) (scale_link k link) = Some h' /\
    h' = h.
Proof.
  intros Hk Hin Hpos _.
  destruct (maxValue_spec links link Hin) as (m & Hm & _ & Hmax).
  pose proof (maxValue_pos links link m Hin Hpos Hm) as Hmpos.
  destruct (maxValue_scale links link k m Hk Hin Hm) as (m' & Hm' & Heq).
  assert (Hm'pos : 0 < m') by (rewrite Heq; nra).
  destruct (linkHeight_bounds links link m Hm Hmpos (Hmax link Hin))
    as (h & Hh & _).
  exists h, h. split; [exact Hh |]. split; [| reflexivity].
  rewrite <- Hh.
  rewrite (linkHeight_Finite _ _ m' Hm'), (linkHeight_Finite _ _ m Hm).
  rewrite !div64_pos by assumption.
  assert (Hq : Link.value (scale_link k link) / m' == Link.value link / m)
    by (simpl; rewrite Heq; field; split; lra).
  now rewrite (round64_comp _ _ Hq).
Qed.

Lemma linkHeight_scale_invariant_witness :
  exists h h' : Q,
    linkHeight [Link.mk 0 1 3; Link.mk 0 1 7] (Link.mk 0 1 3) = Some h /\
    linkHeight (scale_link 4 <$> [Link.mk 0 1 3; Link.mk 0 1 7])
      (Link.mk 0 1 (4 * 3)) = Some h' /\
    h' = h.
Proof.
  apply (linkHeight_scale_invariant [Link.mk 0 1 3; Link.mk 0 1 7]
           (Link.mk 0 1 3) 4).
  - reflexivity.
  - left.
  - reflexivity.
  - intros l Hl.
    apply elem_of_cons in Hl as [-> | Hl];
      [split; vm_compute; reflexivity |].
    apply list_elem_of_singleton in Hl as ->.
    split; vm_compute; reflexivity.
Defined.



(** X12: the scale is anchored at the largest value: in a dataset of
    positive values some ribbon has the thickness 25, and no ribbon is
    thicker. *)
Theorem full_thickness_attained (links : list Link.t) (link : Link.t) :
  link ∈ links ->
  (forall l, l ∈ links -> 0 < Link.value l) ->
  exists (top : Link.t) (h : Q),
    top ∈ links /\
    linkHeight links top = Some h /\ h == 25 /\
    forall l h', l ∈ links -> linkHeight links l = Some h' -> h' <= h.
Proof.
  intros Hin Hall.
  destruct (maxValue_spec links link Hin) as (m & Hm & Hel & Hmax).
  pose proof (maxValue_pos links link m Hin (Hall link Hin) Hm) as Hmpos.
  apply list_elem_of_fmap in Hel as (top & Htop & Hin').
  destruct (linkHeight_bounds links top m Hm Hmpos (Hmax top Hin'))
    as (h & Hh & _ & _ & Hfull).
  assert (H25 : h == 25) by (apply Hfull; now rewrite <- Htop).
  exists top, h.
  split; [exact Hin' |]. split; [exact Hh |]. split; [exact H25 |].
  intros l h' Hl Hh'.
  destruct (linkHeight_bounds links l m Hm Hmpos (Hmax l Hl))
    as (h'' & Hh'' & _ & Hhi & _).
  rewrite Hh' in Hh''. injection Hh'' as <-. lra.
Qed.

Lemma full_thickness_attained_witness :
  exists (top : Link.t) (h : Q),
    top ∈ links_scenario /\
    linkHeight links_scenario top = Some h /\ h == 25.
Proof.
  destruct (full_thickness_attained links_scenario (Link.mk 0 1 100))
    as (top & h & Hin & Hh & Heq & _).
  - left.
  - intros l Hl. apply list_elem_of_singleton in Hl as ->. reflexivity.
  - exists top, h. auto.
Defined.



(** * The list of recent predictions *)

Lemma take_app_cons_take {A : Type} (l k : list A) (x : A) (m : nat) :
  forall n : nat,
    (n <= length l + S m)%nat ->
    take n (l ++ x :: take m k) = take n (l ++ x :: k).
Proof.
  induction l as [| a l IH]; intros n Hn; simpl in *.
  - destruct n as [| n]; [reflexivity |]. simpl.
    rewrite take_take. f_equal. f_equal. lia.
  - destruct n as [| n]; [reflexivity |]. simpl. f_equal. apply IH. lia.
Qed.

Lemma foldl_handlePredictionComplete {A : Type} (ps : list A) :
  forall (prev : list A) (p : A),
    foldl App.handlePredictionComplete prev (p :: ps) =
    take 5 (reverse (p :: ps) ++ prev).
Proof.
  induction ps as [| q ps IH]; intros prev p.
  - reflexivity.
  - change (foldl App.handlePredictionComplete prev (p :: q :: ps))
      with (foldl App.handlePredictionComplete
              (App.handlePredictionComplete prev p) (q :: ps)).
    rewrite IH. unfold App.handlePredictionComplete.
    rewrite (reverse_cons (q :: ps) p), <- app_assoc. simpl.
    apply take_app_cons_take. rewrite length_reverse. simpl. lia.
Qed.

(** X14: the list of recent predictions holds the five most recent ones at
    most, the newest first: after the completions [ps], in that order, it
    is the first five of [ps] reversed; an older entry is dropped for good
    once five newer ones have come. *)
Theorem recentPredictions_newest_five {A : Type} (ps : list A) :
  foldl App.handlePredictionComplete [] ps = take 5 (reverse ps) /\
  (length (foldl App.handlePredictionComplete [] ps) <= 5)%nat /\
  (forall (prev : list A) (p : A),
      foldl App.handlePredictionComplete prev (p :: ps) =
      take 5 (reverse (p :: ps) ++ prev)) /\
  (forall (prev : list A) (p : A),
      head (foldl App.handlePredictionComplete prev (ps ++ [p])) = Some p).
Proof.
  assert (H0 : foldl App.handlePredictionComplete [] ps = take 5 (reverse ps)).
  { destruct ps as [| p ps]; [reflexivity |].
    now rewrite foldl_handlePredictionComplete, app_nil_r. }
  split; [exact H0 |].
  split; [rewrite H0, length_take; lia |].
  split; [apply foldl_handlePredictionComplete |].
  intros prev p. rewrite foldl_app. reflexivity.
Qed.

(** * The colours of the risk categories *)

(** X15: the animal card colours a category as the prediction form does
    whenever the form knows the category (High Risk, Medium Risk, Low Risk);
    it looks for the words anywhere in the text, High first, so a category
    that contains High is red on the card whatever else it contains, and a
    category such as Very High Risk, grey in the form, is red on the
    card. *)
Theorem card_colour_extends_form (category : option string) :
  (PredictionForm.getRiskColor category = "#6b7280" \/
   AnimalCard.getRiskColor category = PredictionForm.getRiskColor category) /\
  (forall c, category = Some c -> includes c "High" = true ->
             AnimalCard.getRiskColor category = "#dc2626") /\
  PredictionForm.getRiskColor (Some "Very High Risk") = "#6b7280" /\
  AnimalCard.getRiskColor (Some "Very High Risk") = "#dc2626".
Proof.
  split; [| split; [| split; reflexivity]].
  - destruct category as [c |]; [| left; reflexivity].
    unfold PredictionForm.getRiskColor.
    destruct (String.eqb c "High Risk") eqn:E1;
      [apply String.eqb_eq in E1 as ->; right; reflexivity |].
    destruct (String.eqb c "Medium Risk") eqn:E2;
      [apply String.eqb_eq in E2 as ->; right; reflexivity |].
    destruct (String.eqb c "Low Risk") eqn:E3;
      [apply String.eqb_eq in E3 as ->; right; reflexivity |].
    left. reflexivity.
  - intros c -> Hc. destruct c as [| a c]; [discriminate Hc |].
    unfold AnimalCard.getRiskColor. now rewrite Hc.
Qed.

(** * The prediction hooks *)

(** X16: when a call of [predict] has ended, [loading] is false and the
    [result] cell holds the value the call resolved to, whatever the cells
    held before; an error message and a result are never both set; an
    argument that is not an object gives the message Invalid animal data
    whatever the server would have replied; and a result is set exactly when
    the argument is an object and the server replied ok with a body that
    parses to a value other than null. *)
Theorem predict_outcome {A D : Type} (animalData : option A)
    (reply : UsePrediction.Reply (D := D)) (st : UsePrediction.State) :
  UsePrediction.loading (UsePrediction.predict animalData reply st).1 = false /\
  UsePrediction.result (UsePrediction.predict animalData reply st).1 =
    (UsePrediction.predict animalData reply st).2 /\
  (UsePrediction.error (UsePrediction.predict animalData reply st).1 = None \/
   UsePrediction.result (UsePrediction.predict animalData reply st).1 = None) /\
  (animalData = None ->
   UsePrediction.error (UsePrediction.predict animalData reply st).1 =
     Some "Invalid animal data") /\
  (forall d : D,
      UsePrediction.result (UsePrediction.predict animalData reply st).1 =
        Some d <->
      is_Some animalData /\
      reply = UsePrediction.Responded (UsePrediction.BodyValue (Some d))) /\
  (forall st0 : UsePrediction.State,
      UsePrediction.predict animalData reply st0 =
      UsePrediction.predict animalData reply st).
Proof.
  unfold UsePrediction.predict.
  destruct animalData as [a |]; simpl.
  - destruct reply as [e | status [e | [err |]] | [e | data]]; simpl;
      (split; [reflexivity |]); (split; [reflexivity |]);
      (split; [auto |]); (split; [discriminate |]);
      (split; [| reflexivity]); intros d;
      (split; [try discriminate | intros [_ [=]]]).
    + intros ->. split; [eauto | reflexivity].
    + subst. reflexivity.
  - repeat split; auto; try discriminate; try (intros [[? [=]] _]).
Qed.

Lemma forEach_from_push {A B : Type} (f : nat -> A -> B) (arr : list A) :
  forall (i : nat) (acc : list B),
    forEach_from (fun acc a i => acc ++ [f i a]) i arr acc =
    acc ++ imap (fun j a => f (i + j)%nat a) arr.
Proof.
  induction arr as [| a arr IH]; intros i acc; simpl.
  - now rewrite app_nil_r.
  - rewrite IH, <- app_assoc. simpl. rewrite Nat.add_0_r.
    do 2 f_equal. apply imap_ext. intros j b _. simpl. f_equal. lia.
Qed.

(** X17: [predictBatch] answers for every animal of the array, in order:
    the results have the length of the array, the [i]-th one being the
    [i]-th animal with the prediction of the [i]-th reply, or with an error
    message when that request failed; a failed request stops nothing and
    sets no error, so on an array the hook's error stays null even if every
    request fails.  Only an argument that is not an array gives an error,
    with no result. *)
Theorem predictBatch_shape {A D : Type} (animalDataArray : option (list A))
    (fetch : nat -> A -> UsePrediction.Reply (D := D))
    (st : UsePrediction.BatchState) :
  UsePrediction.batch_loading
    (UsePrediction.predictBatch animalDataArray fetch st).1 = false /\
  (forall arr : list A,
      animalDataArray = Some arr ->
      exists items : list (A * UsePrediction.Outcome),
        UsePrediction.predictBatch animalDataArray fetch st =
          (UsePrediction.mkBatchState false None items, Some items) /\
        length items = length arr /\
        forall (i : nat) (a : A),
          arr !! i = Some a ->
          items !! i = Some (a, UsePrediction.predictBatch_item (fetch i a))) /\
  (animalDataArray = None ->
   UsePrediction.predictBatch animalDataArray fetch st =
     (UsePrediction.mkBatchState false
        (Some "Input must be an array of animal data objects") [],
      None)).
Proof.
  split; [destruct animalDataArray; reflexivity |].
  split; [| intros ->; reflexivity].
  intros arr ->. unfold UsePrediction.predictBatch, forEach.
  rewrite (forEach_from_push
             (fun i a => (a, UsePrediction.predictBatch_item (fetch i a)))).
  simpl. eexists. split; [reflexivity |].
  split; [apply length_imap |].
  intros i a Hi. rewrite list_lookup_imap, Hi. reflexivity.
Qed.

(** * The insight of the selected node *)

Lemma prefix_chars (sub : string) :
  forall s : string,
    String.prefix sub s = true ->
    forall c, In c (String.list_ascii_of_string sub) ->
              In c (String.list_ascii_of_string s).
Proof.
  induction sub as [| a sub IH]; intros s Hp c Hc; [inversion Hc |].
  destruct s as [| b s]; [discriminate Hp |].
  simpl in Hp. destruct (Ascii.ascii_dec a b) as [-> | _]; [| discriminate Hp].
  simpl in *. destruct Hc as [-> | Hc]; [now left | right; eauto].
Qed.

Lemma includes_unfold (s sub : string) :
  includes s sub =
  if String.prefix sub s then true
  else match s with
       | EmptyString => false
       | String _ s' => includes s' sub
       end.
Proof. destruct s; reflexivity. Qed.

Lemma includes_chars (s sub : string) :
  includes s sub = true ->
  forall c, In c (String.list_ascii_of_string sub) ->
            In c (String.list_ascii_of_string s).
Proof.
  induction s as [| b s IH]; intros Hi c Hc; revert Hi;
    rewrite includes_unfold;
    destruct (String.prefix sub _) eqn:Hp; intros Hi;
    try (eapply prefix_chars; eauto; fail); try discriminate Hi.
  right. now apply IH.
Qed.

Lemma riskInsights_keys_no_digit (key : string) (c : Ascii.ascii) :
  In key (fst <$> riskInsights) ->
  In c (String.list_ascii_of_string key) ->
  is_digit c = false.
Proof.
  intros Hkey Hc.
  assert (H : forallb (fun key =>
                         forallb (fun c => negb (is_digit c))
                           (String.list_ascii_of_string key))
                (fst <$> riskInsights) = true) by (vm_compute; reflexivity).
  rewrite forallb_forall in H. specialize (H key Hkey).
  rewrite forallb_forall in H. specialize (H c Hc).
  now apply negb_true_iff in H.
Qed.

(** X18: [selectedNodeData] never is an insight.  It is [null] while no
    node is selected; and for a selected id, whose text has a digit as the
    text of every number has, no key of [riskInsights] includes that text,
    the keys being names without digits, so the lookup gives [undefined]. *)
Theorem selectedNodeData_never_found (toString : Z -> string)
    (selected : Z) :
  has_digit (toString selected) ->
  selectedNodeData toString (Some selected) = IsUndefined /\
  selectedNodeData toString None = IsNull.
Proof.
  intros (c & Hc & Hd). split; [| reflexivity].
  unfold selectedNodeData.
  destruct (find _ _) as [key |] eqn:Hfind; [| reflexivity].
  apply find_some in Hfind as [Hkey Hinc].
  pose proof (includes_chars _ _ Hinc c Hc) as Hin.
  pose proof (riskInsights_keys_no_digit key c Hkey Hin) as Hno.
  congruence.
Qed.

Lemma selectedNodeData_never_found_witness :
  selectedNodeData pretty (Some 3%Z) = IsUndefined /\
  selectedNodeData pretty None = IsNull.
Proof.
  apply (selectedNodeData_never_found pretty 3).
  exists (Ascii.ascii_of_nat 51).
  split; [vm_compute; left; reflexivity | reflexivity].
Defined.

(** * The layer labels and the sample animals *)

(** X19: each of the five layer labels is written at height 25 with its
    left end on the left edge of the boxes of its layer. *)
Theorem layer_label_aligned (c : Canvas.t) (nodes : list Node.t)
    (li ni : nat) (node : Node.t) :
  NoDup (Node.id <$> nodes) ->
  valid_layers nodes ->
  bucket li nodes !! ni = Some node ->
  exists (np : gmap Z Pos.t) (pos : Pos.t) (label : TextEl.t),
    nodePositions c nodes = Ok np /\
    np !! Node.id node = Some pos /\
    drawLayerLabels c !! li = Some label /\
    layerLabels !! li = Some (TextEl.text label) /\
    TextEl.x label = Pos.x pos /\
    TextEl.y label = 25.
Proof.
  intros Hnd Hvalid Hni.
  destruct (nodePositions_lookup c nodes li ni node Hnd Hvalid Hni)
    as (np & Hnp & Hpos).
  assert (Hin : node ∈ bucket li nodes) by (apply list_elem_of_lookup; eauto).
  apply elem_of_bucket in Hin as [Hlayer Hnode].
  assert (Hli : (li < 5)%nat) by (specialize (Hvalid node Hnode); lia).
  do 5 (destruct li as [| li];
        [eexists np, _, _; split; [exact Hnp |]; split; [exact Hpos |];
         repeat split; reflexivity |]).
  lia.
Qed.

Lemma layer_label_aligned_witness :
  exists (np : gmap Z Pos.t) (pos : Pos.t) (label : TextEl.t),
    nodePositions canvas0 nodes0 = Ok np /\
    np !! 10%Z = Some pos /\
    drawLayerLabels canvas0 !! 3%nat = Some label /\
    TextEl.x label = Pos.x pos.
Proof.
  destruct (layer_label_aligned canvas0 nodes0 3 1
              (Node.mk 10 "Stable" 3 "trend" 0.065 None false)
              nodes0_NoDup nodes0_valid eq_refl)
    as (np & pos & label & Hnp & Hpos & Hlabel & _ & Hx & _).
  exists np, pos, label. auto.
Defined.

(** X20: a refresh of the sample animals that fails keeps the animals that
    were there and sets the error message; one that succeeds replaces them
    and leaves no error; in both cases [loading] ends false.  A reply that
    is not ok gives the message with the status, its body being left
    unread. *)
Theorem fetchAnimals_outcome {D : Type}
    (reply : UsePrediction.Reply (D := D)) (st : UseFetchAnimals.State) :
  UseFetchAnimals.loading (UseFetchAnimals.fetchAnimals reply st).1 = false /\
  (forall data : option D,
      reply = UsePrediction.Responded (UsePrediction.BodyValue data) ->
      UseFetchAnimals.fetchAnimals reply st =
        (UseFetchAnimals.mkState data false None, data)) /\
  ((forall data : option D,
       reply <> UsePrediction.Responded (UsePrediction.BodyValue data)) ->
   exists message : string,
     UseFetchAnimals.fetchAnimals reply st =
       (UseFetchAnimals.mkState (UseFetchAnimals.animals st) false
          (Some message), None)) /\
  (forall (status : Z) (body : UsePrediction.ErrorBody),
      reply = UsePrediction.NotOk status body ->
      UseFetchAnimals.error (UseFetchAnimals.fetchAnimals reply st).1 =
        Some ("HTTP error! status: " +:+ pretty status)).
Proof.
  unfold UseFetchAnimals.fetchAnimals.
  destruct reply as [e | status body | [e | data]]; simpl;
    (split; [reflexivity |]);
    (split; [intros data' [=]; subst; reflexivity |]);
    (split; [| intros status' body' [=]; subst; reflexivity]);
    intros Hne; try (eexists; reflexivity).
  now destruct (Hne data).
Qed.
